(** * markov_model.py: a Markov model of order k over a text

    Shallow embedding of the class [MarkovModel] of [src/markov_model.py]
    and the properties of its construction, accessors, sampler, generator
    and repair routine.

    Conventions of the embedding:
    - a Python [str] is a [list ascii]; a one-character string (the result of
      [s[i]]) is a list of length one, as in Python, where characters are
      strings too;
    - a Python [dict] is an association list in insertion order (the order
      [list(d.keys())] enumerates, which the code depends on in
      [replace_unknown] and [rand]);
    - exceptions are the [Err] results of type [result];
    - the order [k] is a natural number: what Python does with a negative
      order is outside the embedding;
    - the quotients [cal1 / cal2] are exact rationals of [Q] (Python computes
      them in binary floating point, which is not modelled);
    - randomness is a finite distribution: a list of weighted outcomes. *)

From Stdlib Require Import String Ascii List Arith ZArith QArith Lia Bool.
Import ListNotations.

Local Open Scope nat_scope.

(** ** Python values *)

Definition str := list ascii.

(** String literals of the development. *)
Definition py (s : string) : str := list_ascii_of_string s.

Fixpoint str_eqb (a b : str) : bool :=
  match a, b with
  | [], [] => true
  | x :: a', y :: b' => Ascii.eqb x y && str_eqb a' b'
  | _, _ => false
  end.

(** The exceptions the class can raise.  [InvalidKgramLength] and
    [UnknownKgram] are the two [ValueError]s raised explicitly by the
    accessors and by [rand]; the others are raised by Python itself. *)
Inductive exn : Type :=
| InvalidKgramLength   (* ValueError('kgram ... not of length k') *)
| UnknownKgram         (* ValueError('Unknown kgram ...') *)
| KeyError             (* d[key] on a missing key *)
| IndexError           (* s[i] out of range, choice of an empty sequence *)
| ZeroDivisionError    (* a / 0 *)
| ValueError.          (* max of an empty sequence *)

Inductive result (A : Type) : Type :=
| Ok (a : A)
| Err (e : exn).
Arguments Ok {A} a.
Arguments Err {A} e.

Definition rbind {A B} (r : result A) (f : A -> result B) : result B :=
  match r with
  | Ok a => f a
  | Err e => Err e
  end.

Declare Scope result_scope.
Delimit Scope result_scope with result.
Notation "x <- r ;; k" := (rbind r (fun x => k))
  (at level 61, r at next level, right associativity) : result_scope.

(** [s[i]] for a non-negative index. *)
Definition getitem {A} (s : list A) (i : nat) : result (list A) :=
  match nth_error s i with
  | Some x => Ok [x]
  | None => Err IndexError
  end.

(** [l[i]] for a list of values. *)
Definition getelem {A} (l : list A) (i : nat) : result A :=
  match nth_error l i with
  | Some x => Ok x
  | None => Err IndexError
  end.

(** Python's normalisation of a slice bound [x] for a sequence of length
    [n]: a negative bound counts from the end, and bounds are clamped. *)
Definition slice_bound (n : nat) (x : Z) : nat :=
  let y := if (x <? 0)%Z then (x + Z.of_nat n)%Z else x in
  Z.to_nat (Z.min (Z.of_nat n) (Z.max 0 y)).

(** [s[lo:hi]]. *)
Definition slice {A} (s : list A) (lo hi : Z) : list A :=
  let l := slice_bound (length s) lo in
  let h := slice_bound (length s) hi in
  firstn (h - l) (skipn l s).

(** The [k] symbols of [W] from position [b]: [W[b:b+k]]. *)
Definition window (W : str) (b k : nat) : str := firstn k (skipn b W).

(** [s.replace(old, new, 1)] for a one-character [old]. *)
Fixpoint replace_first (s : str) (old : ascii) (new : str) : str :=
  match s with
  | [] => []
  | c :: s' => if Ascii.eqb c old then new ++ s' else c :: replace_first s' old new
  end.

(** ** Dictionaries in insertion order *)

Definition dict (V : Type) := list (str * V).

Definition keys {V} (d : dict V) : list str := map fst d.
Definition values {V} (d : dict V) : list V := map snd d.

Fixpoint lookup {V} (key : str) (d : dict V) : option V :=
  match d with
  | [] => None
  | (k', v) :: d' => if str_eqb key k' then Some v else lookup key d'
  end.

(** [key in d] *)
Definition mem {V} (key : str) (d : dict V) : bool :=
  match lookup key d with Some _ => true | None => false end.

(** [d[key] = v]: an existing key keeps its place, a new one goes last. *)
Fixpoint setitem {V} (key : str) (v : V) (d : dict V) : dict V :=
  match d with
  | [] => [(key, v)]
  | (k', v') :: d' =>
      if str_eqb key k' then (key, v) :: d' else (k', v') :: setitem key v d'
  end.

(** ** The class *)

Definition table := dict (dict nat).

Record MarkovModel : Type := mkModel { _k : nat; _st : table }.

(** One iteration of the loop of [__init__]. *)
Definition init_body (k : nat) (newtxt : str) (st : table) (count : nat)
  : result table :=
  (let hold := slice newtxt (Z.of_nat count) (Z.of_nat (k + count)) in
   c <- getitem newtxt (k + count) ;;
   match lookup hold st with
   | Some inner =>
       match lookup c inner with
       | Some n => Ok (setitem hold (setitem c (n + 1) inner) st)
       | None => Ok (setitem hold (setitem c 1 inner) st)
       end
   | None => Ok (setitem hold (setitem c 1 []) st)
   end)%result.

(** [for i in range(lo, lo + n): st = body(st, i)], stopping at the first
    exception. *)
Definition for_range {S} (lo n : nat) (body : S -> nat -> result S) (s0 : S)
  : result S :=
  fold_left (fun acc i => rbind acc (fun s => body s i)) (seq lo n) (Ok s0).

(** [MarkovModel(text, k)] *)
Definition init (text : str) (k : nat) : result MarkovModel :=
  (let newtxt := text ++ slice text 0 (Z.of_nat k) in
   let size := length newtxt in
   st <- for_range 0 (size - k) (init_body k newtxt) [] ;;
   Ok (mkModel k st))%result.

Definition order (self : MarkovModel) : nat := _k self.

Definition kgram_freq (self : MarkovModel) (kgram : str) : result nat :=
  if negb (_k self =? length kgram) then Err InvalidKgramLength
  else match lookup kgram (_st self) with
       | Some inner => Ok (list_sum (values inner))
       | None => Ok 0
       end.

Definition char_freq (self : MarkovModel) (kgram c : str) : result nat :=
  if negb (_k self =? length kgram) then Err InvalidKgramLength
  else match lookup kgram (_st self) with
       | None => Ok 0
       | Some inner =>
           match lookup c inner with
           | None => Ok 0
           | Some n => Ok n
           end
       end.

(** ** Arithmetic of the likelihoods *)

(** [a / b] on two counts: true division.  Python rounds the quotient, and
    the products of quotients, to binary64 floats; here they are exact
    rationals.  The two agree on the quotients 0 and 1, and on whether a
    product is 0; no property below rests on how two products that differ only
    by rounding compare. *)
Definition py_div (a b : nat) : result Q :=
  if b =? 0 then Err ZeroDivisionError
  else Ok (Z.of_nat a # Pos.of_nat b).

(** [max(a)]: the first of the greatest elements. *)
Definition py_max (a : list Q) : result Q :=
  match a with
  | [] => Err ValueError
  | x :: a' => Ok (fold_left (fun m y => if Qle_bool y m then m else y) a' x)
  end.

(** [a.index(x)]: the first position holding a value equal to [x]. *)
Fixpoint py_index (a : list Q) (x : Q) : result nat :=
  match a with
  | [] => Err ValueError
  | y :: a' => if Qeq_bool y x then Ok 0
               else rbind (py_index a' x) (fun j => Ok (S j))
  end.

(** [l[i] = x] *)
Definition list_set {A} (l : list A) (i : nat) (x : A) : result (list A) :=
  if i <? length l then Ok (firstn i l ++ x :: skipn (S i) l)
  else Err IndexError.

(** ** Randomness: finite distributions over results *)

Definition dist (A : Type) := list (Q * result A).

Definition dret {A} (a : A) : dist A := [(1%Q, Ok a)].

(** A deterministic computation, which may raise. *)
Definition dlift {A} (r : result A) : dist A := [(1%Q, r)].

Definition dbind {A B} (d : dist A) (f : A -> dist B) : dist B :=
  flat_map (fun wr =>
              match snd wr with
              | Ok a => map (fun wr' => ((fst wr * fst wr')%Q, snd wr')) (f a)
              | Err e => [(fst wr, Err e)]
              end) d.

Declare Scope dist_scope.
Delimit Scope dist_scope with dist.
Notation "x <- d ;; k" := (dbind d (fun x => k))
  (at level 61, d at next level, right associativity) : dist_scope.

(** The outcomes a distribution lists. *)
Definition outcomes {A} (d : dist A) : list (result A) := map snd d.

(** The probability that distribution [d] gives to the outcomes [f] accepts. *)
Definition prob {A} (d : dist A) (f : result A -> bool) : Q :=
  fold_right (fun wr acc => if f (snd wr) then (fst wr + acc)%Q else acc) 0%Q d.

Definition returns (s : str) (r : result str) : bool :=
  match r with
  | Ok s' => str_eqb s' s
  | Err _ => false
  end.

(** [stdrandom.discrete(a)], of the external library [stdrandom]: index [i]
    with probability [a[i]]. *)
Definition discrete (a : list Q) : dist nat :=
  map (fun iw => (snd iw, Ok (fst iw))) (combine (seq 0 (length a)) a).

(** [random.choice(seq)], of Python's library: uniform over the positions of
    [seq]; an empty sequence raises [IndexError]. *)
Definition choice {A} (l : list A) : dist A :=
  match l with
  | [] => dlift (Err IndexError)
  | _ => map (fun x => (1 # Pos.of_nat (length l), Ok x)) l
  end.

(** [for i in range(lo, lo + n)] over a random body. *)
Definition dfor_range {S} (lo n : nat) (body : S -> nat -> dist S) (s0 : S)
  : dist S :=
  fold_left (fun acc i => dbind acc (fun s => body s i)) (seq lo n) (dret s0).

(** ** Sampling and generation *)

(** [char_num[i] = self.char_freq(kgram, hold[i]) / total] *)
Definition rand_fill (self : MarkovModel) (kgram : str) (hold : list str)
    (total : nat) (char_num : list Q) (i : nat) : result (list Q) :=
  (h <- getelem hold i ;;
   f <- char_freq self kgram h ;;
   q <- py_div f total ;;
   list_set char_num i q)%result.

Definition rand (self : MarkovModel) (kgram : str) : dist str :=
  if negb (_k self =? length kgram) then dlift (Err InvalidKgramLength)
  else match lookup kgram (_st self) with
       | None => dlift (Err UnknownKgram)
       | Some inner =>
           (let c := length inner in
            let char_num := repeat 0%Q c in
            let hold := keys inner in
            total <- dlift (kgram_freq self kgram) ;;
            char_num <- dlift (if 1 <? c
                               then for_range 0 (length hold)
                                      (rand_fill self kgram hold total) char_num
                               else rand_fill self kgram hold total char_num 0) ;;
            choice_ <- dlift (py_max char_num) ;;
            char <- discrete char_num ;;
            let hold2 := map (fun w => if Qeq_bool choice_ w then char else 0)
                           char_num in
            choice hold)%dist
       end.

(** One iteration of the loop of [gen]. *)
Definition gen_body (self : MarkovModel) (newtxt : str) (i : nat) : dist str :=
  (c <- rand self (slice newtxt (Z.of_nat i) (Z.of_nat (_k self + i))) ;;
   dret (newtxt ++ c))%dist.

Definition gen (self : MarkovModel) (kgram : str) (T : nat) : dist str :=
  let newtxt := kgram in
  dfor_range 0 (T - _k self) (gen_body self) newtxt.

(** ** Repair *)

Definition marker : ascii := "~"%char.

(** The loop over [b] of [replace_unknown], with its [break]: the running
    product [p] over the windows of [ntxt]. *)
Fixpoint likelihood (self : MarkovModel) (ntxt : str) (bs : list nat) (p : Q)
  : result Q :=
  match bs with
  | [] => Ok p
  | b :: bs' =>
      let k := _k self in
      let sub := slice ntxt (Z.of_nat b) (Z.of_nat b - Z.of_nat k - 1) in
      if mem sub (_st self) then
        (cal1 <- char_freq self sub
                   (slice ntxt (Z.of_nat (k + b)) (Z.of_nat (k + b + 1))) ;;
         cal2 <- kgram_freq self sub ;;
         q <- py_div cal1 cal2 ;;
         likelihood self ntxt bs' (p * q)%Q)%result
      else Ok 0%Q
  end.

(** One iteration of the loop over the candidates [keyhold[a]]. *)
Definition candidate_body (self : MarkovModel) (context : str)
    (keyhold : list str) (prob_ : list Q) (a : nat) : result (list Q) :=
  (c <- getelem keyhold a ;;
   let ntxt := replace_first context marker c in
   p <- likelihood self ntxt (seq 0 (_k self + 1)) 1%Q ;;
   Ok (prob_ ++ [p]))%result.

Definition argmax (a : list Q) : result nat :=
  (m <- py_max a ;; py_index a m)%result.

(** The contexts of position [i]: [corrupted[i-k:i]] and
    [corrupted[i+1:i+k+1]]. *)
Definition kgram_b (k : nat) (corrupted : str) (i : nat) : str :=
  slice corrupted (Z.of_nat i - Z.of_nat k) (Z.of_nat i).

Definition kgram_a (k : nat) (corrupted : str) (i : nat) : str :=
  slice corrupted (Z.of_nat (i + 1)) (Z.of_nat (i + k + 1)).

(** One iteration of the loop over the positions [i] of [corrupted]. *)
Definition replace_body (self : MarkovModel) (corrupted : str) (i : nat)
  : result str :=
  (ch <- getitem corrupted i ;;
   if str_eqb ch [marker] then
     let kgram_b := kgram_b (_k self) corrupted i in
     let kgram_a := kgram_a (_k self) corrupted i in
     let context := kgram_b ++ [marker] ++ kgram_a in
     match lookup kgram_b (_st self) with
     | None => Err KeyError
     | Some inner =>
         let keyhold := keys inner in
         prob_ <- for_range 0 (length keyhold)
                    (candidate_body self context keyhold) [] ;;
         j <- argmax prob_ ;;
         best <- getelem keyhold j ;;
         Ok (replace_first corrupted marker best)
     end
   else Ok corrupted)%result.

Definition replace_unknown (self : MarkovModel) (corrupted : str) : result str :=
  let size := length corrupted in
  for_range 0 size (replace_body self) corrupted.

(** The concrete models of the worked examples. *)

Definition model_aabaab : MarkovModel :=
  mkModel 2 [(py "aa", [(py "b", 2)]); (py "ab", [(py "a", 2)]);
             (py "ba", [(py "a", 2)])].

Definition model_aaab : MarkovModel :=
  mkModel 1 [(py "a", [(py "a", 2); (py "b", 1)]); (py "b", [(py "a", 1)])].

Definition model_axy : MarkovModel :=
  mkModel 1 [(py "a", [(py "~", 1)]); (py "~", [(py "x", 1)]);
             (py "x", [(py "y", 1)]); (py "y", [(py "a", 1)])].

(** ** Well-formed tables *)

(** The transitions a table records: the pairs of a k-gram and one of its
    successor symbols. *)
Definition transitions (st : table) : list (str * str) :=
  flat_map (fun e => map (fun ce => (fst e, fst ce)) (snd e)) st.

(** The number of transitions counted, with multiplicity. *)
Definition total (st : table) : nat :=
  list_sum (map (fun e => list_sum (values (snd e))) st).

Definition inner_wf (inner : dict nat) : Prop :=
  inner <> [] /\ Forall (fun ce => length (fst ce) = 1 /\ 0 < snd ce) inner.

Definition table_wf (k : nat) (st : table) : Prop :=
  NoDup (keys st) /\
  Forall (fun e => length (fst e) = k /\ inner_wf (snd e)) st.

(** What one iteration of [__init__] does to the table, given the window
    [hold] and the symbol [c] that follows it. *)
Definition add_transition (st : table) (hold c : str) : table :=
  match lookup hold st with
  | Some inner =>
      match lookup c inner with
      | Some n => setitem hold (setitem c (n + 1) inner) st
      | None => setitem hold (setitem c 1 inner) st
      end
  | None => setitem hold (setitem c 1 []) st
  end.

(** The table after [n] iterations of the loop of [__init__]. *)
Fixpoint table_after (k : nat) (newtxt : str) (n : nat) : table :=
  match n with
  | 0 => []
  | S n' => add_transition (table_after k newtxt n') (window newtxt n' k)
                           (window newtxt (n' + k) 1)
  end.

(** A table is closed under transition when shifting a k-gram by one of its
    successor symbols gives a k-gram of the table: [g[1:] + c]. *)
Definition closed (st : table) : Prop :=
  forall g c, In (g, c) (transitions st) -> In (skipn 1 g ++ c) (keys st).

(** The trailing [k] symbols of a string. *)
Definition trailing (k : nat) (s : str) : str := skipn (length s - k) s.

(** The sum of [kgram_freq(g)] over the keys [g] of the table. *)
Definition sum_kgram_freq (self : MarkovModel) : result nat :=
  fold_left (fun acc g => (n <- acc ;; f <- kgram_freq self g ;; Ok (n + f))%result)
            (keys (_st self)) (Ok 0).

(** ** The quotient of two frequencies *)

(** The frequency of [next] after [sub] over the frequency of [sub]: the
    factor the loop over [b] multiplies in for a window of the table. *)
Definition cond_prob (self : MarkovModel) (sub next : str) : Q :=
  match char_freq self sub next, kgram_freq self sub with
  | Ok a, Ok b => Z.of_nat a # Pos.of_nat b
  | _, _ => 0
  end.

(** The value [p] the loop over [b] leaves for candidate [c] in the context
    of a marker. *)
Definition candidate_p (self : MarkovModel) (context c : str) : Q :=
  match likelihood self (replace_first context marker c)
          (seq 0 (_k self + 1)) 1%Q with
  | Ok p => p
  | Err _ => 0%Q
  end.

(** [s] with the symbol at position [i] replaced by the string [c]. *)
Definition replace_at (s : str) (i : nat) (c : str) : str :=
  firstn i s ++ c ++ skipn (S i) s.

(** Every outcome of a distribution is a value that satisfies [P], and there
    is one. *)
Definition surely {A} (P : A -> Prop) (d : dist A) : Prop :=
  d <> [] /\ Forall (fun wr => exists a, snd wr = Ok a /\ P a) d.

(** ** Reading the table, and counting in the circular text *)

(** The count stored for [c] under [g], 0 when there is none. *)
Definition stored_count (st : table) (g c : str) : nat :=
  match lookup g st with
  | Some inner => match lookup c inner with Some n => n | None => 0 end
  | None => 0
  end.

(** The sum of the counts stored under [g], 0 when [g] is no key. *)
Definition stored_sum (st : table) (g : str) : nat :=
  match lookup g st with
  | Some inner => list_sum (values inner)
  | None => 0
  end.

(** The circular text [text + text[:k]] that [__init__] reads. *)
Definition circular (text : str) (k : nat) : str := text ++ firstn k text.

(** The number of positions [i < n] of [s] where the window of length [k]
    is [g]. *)
Definition occurrences (s : str) (k n : nat) (g : str) : nat :=
  length (filter (fun i => str_eqb (window s i k) g) (seq 0 n)).

(** The number of positions [i < n] of [s] where the window of length [k]
    is [g] and the symbol after it is [c]. *)
Definition occurrences_followed (s : str) (k n : nat) (g c : str) : nat :=
  length (filter (fun i => str_eqb (window s i k) g &&
                           str_eqb (window s (i + k) 1) c) (seq 0 n)).

(** The successor symbols of the keys are stored once each. *)
Definition inner_keys_distinct (st : table) : Prop :=
  Forall (fun e => NoDup (keys (snd e))) st.

(** ** Weights of a distribution *)

(** The sum of a list of rationals. *)
Definition Qsum (a : list Q) : Q := fold_right Qplus 0%Q a.

(** The total weight of a distribution. *)
Definition mass {A} (d : dist A) : Q := prob d (fun _ => true).

(** ** The order in which keys are enumerated *)

(** [l] with [x] appended, unless [l] has it. *)
Definition add_new (l : list str) (x : str) : list str :=
  if existsb (str_eqb x) l then l else l ++ [x].

(** The distinct elements of a list, in the order of their first
    occurrence. *)
Definition first_seen (xs : list str) : list str := fold_left add_new xs [].

(** The successor symbols stored under [g], as [list(table[g].keys())]
    enumerates them; none when [g] is no key. *)
Definition successors (st : table) (g : str) : list str :=
  match lookup g st with
  | Some inner => keys inner
  | None => []
  end.

(** The result a call [gen(g, T)] is to give: a string of length [T] whose
    first [k] symbols are [g], and no exception. *)
Definition generated (k : nat) (g : str) (T : nat) (r : result str) : bool :=
  match r with
  | Ok s => (length s =? T) && str_eqb (firstn k s) g
  | Err _ => false
  end.

(** * Properties *)

(** ** Strings and slices *)

Lemma str_eqb_eq (a b : str) : str_eqb a b = true <-> a = b.
Proof.
  revert b; induction a as [|x a IH]; intros [|y b]; simpl;
    try (split; congruence).
  rewrite andb_true_iff, Ascii.eqb_eq, IH. split.
  - intros [-> ->]; reflexivity.
  - intros H; injection H; auto.
Qed.

Lemma str_eqb_refl (a : str) : str_eqb a a = true.
Proof. apply str_eqb_eq; reflexivity. Qed.

Lemma str_eqb_neq (a b : str) : str_eqb a b = false <-> a <> b.
Proof.
  rewrite <- str_eqb_eq. destruct (str_eqb a b); split; congruence.
Qed.

Lemma slice_nat {A} (s : list A) (lo hi : nat) :
  slice s (Z.of_nat lo) (Z.of_nat hi) = firstn (hi - lo) (skipn lo s).
Proof.
  unfold slice, slice_bound.
  destruct (Z.ltb_spec (Z.of_nat lo) 0); [lia|].
  destruct (Z.ltb_spec (Z.of_nat hi) 0); [lia|].
  set (n := length s).
  replace (Z.to_nat (Z.min (Z.of_nat n) (Z.max 0 (Z.of_nat lo)))) with (Nat.min n lo) by lia.
  replace (Z.to_nat (Z.min (Z.of_nat n) (Z.max 0 (Z.of_nat hi)))) with (Nat.min n hi) by lia.
  destruct (Nat.le_gt_cases n lo) as [Hlo|Hlo].
  - rewrite !skipn_all2 by (subst n; lia). now rewrite !firstn_nil.
  - replace (Nat.min n lo) with lo by lia.
    destruct (Nat.le_gt_cases hi n) as [Hhi|Hhi].
    + now replace (Nat.min n hi) with hi by lia.
    + replace (Nat.min n hi) with n by lia.
      rewrite !firstn_all2; trivial; rewrite length_skipn; subst n; lia.
Qed.

Lemma window_length (s : str) (b k : nat) :
  b + k <= length s -> length (window s b k) = k.
Proof. intros H. unfold window. rewrite length_firstn, length_skipn. lia. Qed.

Lemma firstn_snoc {A} (l : list A) (n : nat) (x : A) :
  nth_error l n = Some x -> firstn n l ++ [x] = firstn (S n) l.
Proof.
  revert l; induction n as [|n IH]; intros [|y l]; simpl; try discriminate.
  - intros [= ->]; reflexivity.
  - intros H. f_equal. apply IH; exact H.
Qed.

Lemma nth_error_skipn {A} (l : list A) (i j : nat) :
  nth_error (skipn i l) j = nth_error l (i + j).
Proof.
  revert l; induction i as [|i IH]; intros [|y l]; simpl; trivial.
  now destruct j.
Qed.

(** Dropping the first symbol of a window and appending the symbol that
    follows it gives the next window. *)
Lemma window_shift (s : str) (i k : nat) (c : ascii) :
  0 < k -> nth_error s (i + k) = Some c ->
  skipn 1 (window s i k) ++ [c] = window s (S i) k.
Proof.
  intros Hk Hc. unfold window.
  assert (Hi : i < length s).
  { apply Nat.lt_le_trans with (i + k + 1); [lia|].
    assert (nth_error s (i + k) <> None) as H%nth_error_Some by congruence. lia. }
  destruct k as [|k]; [lia|].
  destruct (skipn i s) as [|x rest] eqn:E.
  { apply (f_equal (@length _)) in E. rewrite length_skipn in E. simpl in E. lia. }
  assert (Hrest : skipn (S i) s = rest).
  { replace (S i) with (1 + i) by lia. now rewrite <- skipn_skipn, E. }
  rewrite Hrest. simpl firstn. simpl skipn.
  apply firstn_snoc. rewrite <- Hrest, nth_error_skipn.
  rewrite <- Hc. f_equal. lia.
Qed.

(** ** Dictionaries *)

Section Dict.
Context {V : Type}.
Implicit Types (d : dict V) (g : str) (v : V).

Lemma lookup_In g v d : lookup g d = Some v -> In (g, v) d.
Proof.
  induction d as [|[k' v'] d IH]; simpl; [discriminate|].
  destruct (str_eqb g k') eqn:E.
  - apply str_eqb_eq in E. intros [= ->]. subst. now left.
  - intros H. right. auto.
Qed.

Lemma lookup_None g d : lookup g d = None <-> ~ In g (keys d).
Proof.
  induction d as [|[k' v'] d IH]; simpl; [tauto|].
  destruct (str_eqb g k') eqn:E.
  - apply str_eqb_eq in E. subst. split; [discriminate|tauto].
  - apply str_eqb_neq in E. rewrite IH. split; [intros H [H'|H']|]; auto.
Qed.

Lemma In_keys_lookup g d : In g (keys d) -> exists v, lookup g d = Some v.
Proof.
  intros H. destruct (lookup g d) eqn:E; [eauto|].
  apply lookup_None in E. contradiction.
Qed.

Lemma lookup_In_keys g v d : lookup g d = Some v -> In g (keys d).
Proof. intros H%lookup_In. apply (in_map fst) in H. exact H. Qed.

Lemma NoDup_lookup g v d : NoDup (keys d) -> In (g, v) d -> lookup g d = Some v.
Proof.
  induction d as [|[k' v'] d IH]; simpl; [tauto|].
  intros Hnd [H|H].
  - injection H as -> ->. now rewrite str_eqb_refl.
  - inversion Hnd as [|? ? Hk Hd]; subst.
    destruct (str_eqb g k') eqn:E; [|auto].
    apply str_eqb_eq in E. subst. exfalso. apply Hk.
    apply (in_map fst) in H. exact H.
Qed.

(** Assigning to a key the dictionary has replaces its value in place. *)
Lemma setitem_present g v v' d :
  lookup g d = Some v ->
  exists d1 d2, d = d1 ++ (g, v) :: d2 /\ setitem g v' d = d1 ++ (g, v') :: d2.
Proof.
  induction d as [|[k' w] d IH]; simpl; [discriminate|].
  destruct (str_eqb g k') eqn:E.
  - apply str_eqb_eq in E. subst. intros [= ->]. now exists [], d.
  - intros H. destruct (IH H) as (d1 & d2 & -> & ->).
    now exists ((k', w) :: d1), d2.
Qed.

(** Assigning to a new key appends it. *)
Lemma setitem_absent g v' d : lookup g d = None -> setitem g v' d = d ++ [(g, v')].
Proof.
  induction d as [|[k' w] d IH]; simpl; trivial.
  destruct (str_eqb g k'); [discriminate|]. intros H. now rewrite IH.
Qed.
End Dict.

(** ** Loops *)

Lemma for_range_S {S} (lo n : nat) (body : S -> nat -> result S) (s0 : S) :
  for_range lo (Datatypes.S n) body s0 =
  rbind (for_range lo n body s0) (fun s => body s (lo + n)).
Proof. unfold for_range. now rewrite seq_S, fold_left_app. Qed.

(** A loop whose body keeps an invariant, indexed by the number of
    iterations done, and never raises, runs to its end. *)
Lemma for_range_inv {S} (I : nat -> S -> Prop) (lo n : nat)
    (body : S -> nat -> result S) (s0 : S) :
  I 0 s0 ->
  (forall j s, j < n -> I j s -> exists s', body s (lo + j) = Ok s' /\ I (Datatypes.S j) s') ->
  exists s', for_range lo n body s0 = Ok s' /\ I n s'.
Proof.
  intros H0 Hstep. induction n as [|n IH].
  - exists s0. now split.
  - destruct IH as (s & Hs & HI); [intros; apply Hstep; auto|].
    rewrite for_range_S, Hs. simpl. apply Hstep; auto.
Qed.

Lemma for_range_cons {S} (lo n : nat) (body : S -> nat -> result S) (s0 s1 : S) :
  body s0 lo = Ok s1 ->
  for_range lo (Datatypes.S n) body s0 = for_range (Datatypes.S lo) n body s1.
Proof. intros H. unfold for_range. simpl. now rewrite H. Qed.

(** ** Construction *)

Lemma init_body_add (k : nat) (newtxt : str) (st : table) (count : nat) (c : ascii) :
  nth_error newtxt (k + count) = Some c ->
  init_body k newtxt st count = Ok (add_transition st (window newtxt count k) [c]).
Proof.
  intros H. unfold init_body, getitem, add_transition, window. rewrite H. simpl.
  rewrite slice_nat. replace (k + count - count) with k by lia.
  destruct (lookup _ st) as [inner|]; trivial.
  now destruct (lookup [c] inner).
Qed.

Lemma window_1 (s : str) (i : nat) (c : ascii) :
  nth_error s i = Some c -> window s i 1 = [c].
Proof.
  intros H. unfold window. rewrite <- (Nat.add_0_r i), <- nth_error_skipn in H.
  destruct (skipn i s); simpl in *; congruence.
Qed.

Lemma init_loop (k : nat) (newtxt : str) (n : nat) :
  n <= length newtxt - k ->
  for_range 0 n (init_body k newtxt) [] = Ok (table_after k newtxt n).
Proof.
  intros Hn.
  destruct (for_range_inv (fun j st => st = table_after k newtxt j) 0 n
              (init_body k newtxt) []) as (st & Hst & ->); trivial.
  intros j st Hj ->. simpl.
  destruct (nth_error newtxt (k + j)) as [c|] eqn:E.
  - exists (table_after k newtxt (S j)). split; trivial.
    rewrite (init_body_add _ _ _ _ c E). simpl.
    now rewrite (window_1 _ _ c) by (rewrite <- E; f_equal; lia).
  - apply nth_error_None in E. lia.
Qed.

(** Construction never raises: it returns the table of the
    [len(newtxt) - k] windows of [newtxt = text + text[:k]]. *)
Lemma init_total (text : str) (k : nat) :
  init text k =
  Ok (mkModel k (table_after k (text ++ firstn k text)
                   (length (text ++ firstn k text) - k))).
Proof.
  unfold init. change 0%Z with (Z.of_nat 0). rewrite slice_nat. simpl skipn.
  rewrite Nat.sub_0_r. rewrite init_loop by lia. reflexivity.
Qed.

(** *** What assignment does to keys, entries and sums *)

Section Setitem.
Context {V : Type}.
Implicit Types (d : dict V) (g : str) (v : V).

Lemma setitem_not_nil g v d : setitem g v d <> [].
Proof. destruct d as [|[k' w] d]; simpl; [|destruct (str_eqb g k')]; discriminate. Qed.

Lemma Forall_setitem (P : str * V -> Prop) g v d :
  Forall P d -> P (g, v) -> Forall P (setitem g v d).
Proof.
  intros Hd Hv. induction Hd as [|[k' w] d Hw Hd IH]; simpl.
  - now constructor.
  - destruct (str_eqb g k'); constructor; auto.
Qed.

Lemma In_keys_setitem g v d x :
  In x (keys (setitem g v d)) <-> x = g \/ In x (keys d).
Proof.
  induction d as [|[k' w] d IH]; simpl.
  - intuition.
  - destruct (str_eqb g k') eqn:E; simpl.
    + apply str_eqb_eq in E. subst. intuition.
    + rewrite IH. intuition.
Qed.

Lemma NoDup_setitem g v d : NoDup (keys d) -> NoDup (keys (setitem g v d)).
Proof.
  induction d as [|[k' w] d IH]; simpl; intros Hnd.
  - constructor; [intros []|constructor].
  - inversion Hnd as [|? ? Hk Hd]; subst.
    destruct (str_eqb g k') eqn:E; simpl.
    + apply str_eqb_eq in E. subst. now constructor.
    + apply str_eqb_neq in E. constructor; auto.
      rewrite In_keys_setitem. intros [H|H]; [congruence|contradiction].
Qed.
End Setitem.

Lemma sum_setitem_present (c : str) (n n' : nat) (inner : dict nat) :
  lookup c inner = Some n ->
  list_sum (values (setitem c n' inner)) + n = list_sum (values inner) + n'.
Proof.
  intros H. destruct (setitem_present c n n' inner H) as (d1 & d2 & -> & ->).
  unfold values. rewrite !map_app, !list_sum_app. simpl. lia.
Qed.

Lemma sum_setitem_absent (c : str) (n' : nat) (inner : dict nat) :
  lookup c inner = None ->
  list_sum (values (setitem c n' inner)) = list_sum (values inner) + n'.
Proof.
  intros H. rewrite setitem_absent by exact H.
  unfold values. rewrite map_app, list_sum_app. simpl. lia.
Qed.

Lemma total_setitem_present (g : str) (inner inner' : dict nat) (st : table) :
  lookup g st = Some inner ->
  total (setitem g inner' st) + list_sum (values inner) =
  total st + list_sum (values inner').
Proof.
  intros H. destruct (setitem_present g inner inner' st H) as (d1 & d2 & -> & ->).
  unfold total. rewrite !map_app, !list_sum_app. simpl. lia.
Qed.

Lemma total_setitem_absent (g : str) (inner' : dict nat) (st : table) :
  lookup g st = None ->
  total (setitem g inner' st) = total st + list_sum (values inner').
Proof.
  intros H. rewrite setitem_absent by exact H.
  unfold total. rewrite map_app, list_sum_app. simpl. lia.
Qed.

(** Every iteration counts one more transition. *)
Lemma total_add_transition (st : table) (hold c : str) :
  total (add_transition st hold c) = S (total st).
Proof.
  unfold add_transition. destruct (lookup hold st) as [inner|] eqn:E.
  - destruct (lookup c inner) as [n|] eqn:Ec.
    + pose proof (total_setitem_present hold inner (setitem c (n + 1) inner) st E).
      pose proof (sum_setitem_present c n (n + 1) inner Ec). lia.
    + pose proof (total_setitem_present hold inner (setitem c 1 inner) st E).
      pose proof (sum_setitem_absent c 1 inner Ec). lia.
  - rewrite total_setitem_absent by exact E. simpl. lia.
Qed.

Lemma In_transitions (st : table) (g c : str) :
  In (g, c) (transitions st) <-> exists inner, In (g, inner) st /\ In c (keys inner).
Proof.
  unfold transitions. rewrite in_flat_map. split.
  - intros ([g' inner] & He & Hc). simpl in Hc.
    apply in_map_iff in Hc as ([c' n] & [= <- <-] & Hc).
    exists inner. split; trivial. now apply (in_map fst) in Hc.
  - intros (inner & He & Hc). exists (g, inner). split; trivial. simpl.
    apply in_map_iff in Hc as ([c' n] & Hc' & Hc). simpl in Hc'. subst.
    apply in_map_iff. now exists (c, n).
Qed.

Lemma transitions_app (d1 d2 : table) :
  transitions (d1 ++ d2) = transitions d1 ++ transitions d2.
Proof. unfold transitions. now rewrite flat_map_app. Qed.

Lemma In_transitions_cons (g : str) (inner : dict nat) (d : table) (x : str * str) :
  In x (transitions ((g, inner) :: d)) <->
  (fst x = g /\ In (snd x) (keys inner)) \/ In x (transitions d).
Proof.
  destruct x as [g' c']. change ((g, inner) :: d) with ([(g, inner)] ++ d).
  rewrite transitions_app, in_app_iff, (In_transitions [(g, inner)]). simpl.
  split; intros [H|H]; auto; left.
  - destruct H as (i & [[= <- <-]|[]] & Hc). auto.
  - destruct H as [-> Hc]. eauto.
Qed.

(** The transitions after an iteration: the new one and those before. *)
Lemma In_transitions_add (st : table) (hold c : str) (x : str * str) :
  In x (transitions (add_transition st hold c)) <->
  x = (hold, c) \/ In x (transitions st).
Proof.
  assert (Hpresent : forall inner inner',
             lookup hold st = Some inner ->
             (forall y, In y (keys inner') <-> y = c \/ In y (keys inner)) ->
             In x (transitions (setitem hold inner' st)) <->
             x = (hold, c) \/ In x (transitions st)).
  { intros inner inner' E Hk.
    destruct (setitem_present hold inner inner' st E) as (d1 & d2 & -> & ->).
    rewrite !transitions_app, !in_app_iff, !In_transitions_cons, Hk.
    destruct x as [g' c']; simpl. intuition (subst; auto); congruence. }
  unfold add_transition. destruct (lookup hold st) as [inner|] eqn:E.
  - destruct (lookup c inner) as [n|];
      apply (Hpresent inner); trivial; intros y; apply In_keys_setitem.
  - rewrite setitem_absent by exact E.
    rewrite transitions_app, in_app_iff, In_transitions_cons. simpl.
    destruct x as [g' c']; simpl. intuition (subst; auto); congruence.
Qed.

Lemma add_transition_wf (k : nat) (st : table) (hold c : str) :
  table_wf k st -> length hold = k -> length c = 1 ->
  table_wf k (add_transition st hold c).
Proof.
  intros [Hnd Hall] Hh Hc.
  assert (Hnew : forall n inner,
             0 < n -> inner = [] \/ inner_wf inner -> inner_wf (setitem c n inner)).
  { intros n inner Hn Hin. split; [apply setitem_not_nil|].
    apply Forall_setitem; [|simpl; auto].
    destruct Hin as [->|[_ H]]; [constructor|exact H]. }
  assert (Hset : forall inner', inner_wf inner' ->
                                table_wf k (setitem hold inner' st)).
  { intros inner' Hi. split; [now apply NoDup_setitem|].
    apply Forall_setitem; [exact Hall|simpl; auto]. }
  unfold add_transition. destruct (lookup hold st) as [inner|] eqn:E.
  - apply lookup_In in E. rewrite Forall_forall in Hall.
    destruct (Hall _ E) as [_ Hi]. simpl in Hi.
    destruct (lookup c inner); apply Hset, Hnew; auto; lia.
  - apply Hset, Hnew; auto.
Qed.

(** *** The table built by the loop *)

Lemma table_after_wf (k : nat) (newtxt : str) (n : nat) :
  n <= length newtxt - k -> table_wf k (table_after k newtxt n).
Proof.
  induction n as [|n IH]; intros Hn; simpl.
  - split; constructor.
  - apply add_transition_wf; [apply IH; lia| |]; apply window_length; lia.
Qed.

Lemma total_table_after (k : nat) (newtxt : str) (n : nat) :
  total (table_after k newtxt n) = n.
Proof.
  induction n as [|n IH]; simpl; trivial.
  now rewrite total_add_transition, IH.
Qed.

Lemma In_transitions_after (k : nat) (newtxt : str) (n : nat) (x : str * str) :
  In x (transitions (table_after k newtxt n)) <->
  exists i, i < n /\ x = (window newtxt i k, window newtxt (i + k) 1).
Proof.
  induction n as [|n IH]; simpl.
  - split; [intros []|intros (i & Hi & _); lia].
  - rewrite In_transitions_add, IH. split.
    + intros [->|(i & Hi & ->)]; [exists n|exists i]; auto.
    + intros (i & Hi & ->). destruct (Nat.eq_dec i n) as [->|]; auto.
      right. exists i. split; [lia|trivial].
Qed.

(** In a well-formed table the keys are the k-grams that have a successor. *)
Lemma In_keys_transitions (k : nat) (st : table) (g : str) :
  table_wf k st -> In g (keys st) <-> exists c, In (g, c) (transitions st).
Proof.
  intros [Hnd Hall]. split.
  - intros (inner & E)%In_keys_lookup. apply lookup_In in E.
    rewrite Forall_forall in Hall. destruct (Hall _ E) as [_ [Hne _]].
    simpl in Hne. destruct inner as [|[c n] inner]; [congruence|].
    exists c. apply In_transitions. exists ((c, n) :: inner). simpl. auto.
  - intros (c & (inner & E & _)%In_transitions).
    apply (in_map fst) in E. exact E.
Qed.

Lemma wf_lookup (k : nat) (st : table) (g : str) (inner : dict nat) :
  table_wf k st -> lookup g st = Some inner -> length g = k /\ inner_wf inner.
Proof.
  intros [_ Hall] E%lookup_In. rewrite Forall_forall in Hall.
  exact (Hall _ E).
Qed.

(** The model [MarkovModel(text, k)] returns. *)
Lemma init_inv (text : str) (k : nat) (m : MarkovModel) :
  init text k = Ok m ->
  m = mkModel k (table_after k (text ++ firstn k text)
                   (length (text ++ firstn k text) - k)).
Proof. rewrite init_total. now intros [= <-]. Qed.

Lemma init_wf (text : str) (k : nat) (m : MarkovModel) :
  init text k = Ok m -> _k m = k /\ table_wf k (_st m).
Proof.
  intros ->%init_inv. simpl. split; trivial. now apply table_after_wf.
Qed.

Lemma newtxt_length (text : str) (k : nat) :
  k <= length text -> length (text ++ firstn k text) - k = length text.
Proof. intros H. rewrite length_app, length_firstn. lia. Qed.

(** The circular text wraps: the window that starts at its end is the first
    window. *)
Lemma window_wrap (text : str) (k : nat) :
  k <= length text ->
  window (text ++ firstn k text) (length text) k = window (text ++ firstn k text) 0 k.
Proof.
  intros H. unfold window. simpl skipn.
  rewrite skipn_app, skipn_all, Nat.sub_diag. simpl.
  rewrite firstn_app. replace (k - length text) with 0 by lia.
  rewrite firstn_O, app_nil_r. now rewrite firstn_firstn, Nat.min_id.
Qed.

(** The table of a circular text is closed under transition. *)
Lemma table_after_closed (text : str) (k : nat) (g c : str) :
  0 < k -> k <= length text ->
  let st := table_after k (text ++ firstn k text) (length text) in
  In (g, c) (transitions st) -> In (skipn 1 g ++ c) (keys st).
Proof.
  intros Hk Hlen st (i & Hi & [= -> ->])%In_transitions_after.
  set (newtxt := text ++ firstn k text) in *.
  assert (Hsize : length newtxt = length text + k).
  { unfold newtxt. rewrite length_app, length_firstn. lia. }
  destruct (nth_error newtxt (i + k)) as [a|] eqn:Ea;
    [|apply nth_error_None in Ea; lia].
  rewrite (window_1 _ _ a Ea), (window_shift _ _ _ a Hk Ea).
  apply (In_keys_transitions k); [apply table_after_wf; lia|].
  assert (Hnext : exists j, j < length text /\ window newtxt (S i) k = window newtxt j k).
  { destruct (Nat.eq_dec (S i) (length text)) as [E|E].
    - exists 0. split; [lia|]. rewrite E. now apply window_wrap.
    - exists (S i). split; [lia|trivial]. }
  destruct Hnext as (j & Hj & ->).
  exists (window newtxt (j + k) 1). apply In_transitions_after. eauto.
Qed.

(** ** The accessors *)

Lemma kgram_freq_key (k : nat) (st : table) (g : str) (inner : dict nat) :
  table_wf k st -> In (g, inner) st ->
  kgram_freq (mkModel k st) g = Ok (list_sum (values inner)).
Proof.
  intros Hwf Hin. pose proof Hwf as [Hnd Hall].
  rewrite Forall_forall in Hall. destruct (Hall _ Hin) as [Hlen _].
  unfold kgram_freq. simpl in *. rewrite Hlen, Nat.eqb_refl. simpl.
  now rewrite (NoDup_lookup g inner st Hnd Hin).
Qed.

Lemma sum_kgram_freq_entries (self : MarkovModel) (l : table) (a : nat) :
  (forall g inner, In (g, inner) l ->
                   kgram_freq self g = Ok (list_sum (values inner))) ->
  fold_left (fun acc g => (n <- acc ;; f <- kgram_freq self g ;; Ok (n + f))%result)
            (keys l) (Ok a) = Ok (a + total l).
Proof.
  revert a. induction l as [|[g inner] l IH]; intros a H; simpl.
  - f_equal. unfold total. simpl. lia.
  - rewrite (H g inner) by now left. simpl.
    rewrite IH by (intros; apply H; now right).
    f_equal. unfold total. simpl. lia.
Qed.

(** C3. For a text of length [n >= k], the frequencies [kgram_freq(g)] of the
    k-grams [g] of the table built from [(text, k)] sum to [n]: the circular
    reading counts each character of the text once as a successor. *)
Theorem circular_count_invariant (text : str) (k : nat) (m : MarkovModel) :
  k <= length text -> init text k = Ok m ->
  sum_kgram_freq m = Ok (length text).
Proof.
  intros Hlen Hm. pose proof (init_wf _ _ _ Hm) as [_ Hwf].
  apply init_inv in Hm. subst m. simpl in Hwf.
  unfold sum_kgram_freq. simpl _st.
  rewrite sum_kgram_freq_entries.
  - now rewrite total_table_after, newtxt_length.
  - intros g inner Hin. now apply kgram_freq_key.
Qed.

Lemma circular_count_invariant_witness :
  sum_kgram_freq model_aabaab = Ok 6.
Proof.
  apply (circular_count_invariant (py "aabaab") 2 model_aabaab).
  - simpl. lia.
  - reflexivity.
Defined.

(** C5. A query string whose length is not [k] makes [kgram_freq] and
    [char_freq] fail with the length error, never return 0; a query of length
    [k] gets the sum of the counts of [table[g]], or the count
    [table[g][c]], and 0 for what the table does not hold. *)
Theorem accessors_check_length (self : MarkovModel) (g c : str) :
  (length g <> _k self ->
   kgram_freq self g = Err InvalidKgramLength /\
   char_freq self g c = Err InvalidKgramLength) /\
  (length g = _k self ->
   kgram_freq self g =
     Ok (match lookup g (_st self) with
         | Some inner => list_sum (values inner)
         | None => 0
         end) /\
   char_freq self g c =
     Ok (match lookup g (_st self) with
         | Some inner => match lookup c inner with Some n => n | None => 0 end
         | None => 0
         end)).
Proof.
  unfold kgram_freq, char_freq. split; intros H.
  - assert (E : (_k self =? length g) = false) by (apply Nat.eqb_neq; congruence).
    now rewrite E.
  - rewrite H, Nat.eqb_refl. simpl.
    destruct (lookup g (_st self)) as [inner|]; split; trivial.
    now destruct (lookup c inner).
Qed.

Lemma accessors_check_length_witness :
  (kgram_freq model_aabaab (py "aab") = Err InvalidKgramLength /\
   char_freq model_aabaab (py "aab") (py "a") = Err InvalidKgramLength) /\
  (kgram_freq model_aabaab (py "aa") = Ok 2 /\
   char_freq model_aabaab (py "aa") (py "b") = Ok 2) /\
  (kgram_freq model_aabaab (py "bb") = Ok 0 /\
   char_freq model_aabaab (py "aa") (py "a") = Ok 0).
Proof.
  split; [|split].
  - apply (proj1 (accessors_check_length model_aabaab (py "aab") (py "a"))).
    simpl. lia.
  - apply (proj2 (accessors_check_length model_aabaab (py "aa") (py "b"))).
    reflexivity.
  - split.
    + apply (proj2 (accessors_check_length model_aabaab (py "bb") (py "a"))).
      reflexivity.
    + apply (proj2 (accessors_check_length model_aabaab (py "aa") (py "a"))).
      reflexivity.
Defined.

(** ** Construction: domain and well-formedness *)




(** C8. In the table built from [(text, k)], [len(text) >= k], every key has
    length [k] and every count stored under it is positive. *)
Theorem init_table_well_formed (text : str) (k : nat) (m : MarkovModel) :
  k <= length text -> init text k = Ok m ->
  forall g inner, In (g, inner) (_st m) ->
    length g = k /\ forall c n, In (c, n) inner -> 0 < n.
Proof.
  intros _ Hm g inner Hin. destruct (init_wf _ _ _ Hm) as [_ [_ Hall]].
  rewrite Forall_forall in Hall. destruct (Hall _ Hin) as [Hlen [_ Hinner]].
  split; [exact Hlen|]. intros c n Hc. rewrite Forall_forall in Hinner.
  exact (proj2 (Hinner _ Hc)).
Qed.

Lemma init_table_well_formed_witness :
  length (py "ab") = 2 /\ forall c n, In (c, n) [(py "a", 2)] -> 0 < n.
Proof.
  apply (init_table_well_formed (py "aabaab") 2 model_aabaab).
  - simpl. lia.
  - reflexivity.
  - simpl. auto.
Defined.

(** ** Distributions *)

Section Surely.
Context {A B : Type}.

Lemma surely_dret (P : A -> Prop) (a : A) : P a -> surely P (dret a).
Proof.
  intros H. split; [discriminate|]. constructor; [|constructor].
  exists a. now split.
Qed.

Lemma surely_mono (P Q : A -> Prop) (d : dist A) :
  surely P d -> (forall a, P a -> Q a) -> surely Q d.
Proof.
  intros [Hne Hall] HPQ. split; trivial.
  eapply Forall_impl; [|exact Hall]. intros wr (a & E & Ha). eauto.
Qed.

Lemma surely_dbind (P : A -> Prop) (Q : B -> Prop) (d : dist A) (f : A -> dist B) :
  surely P d -> (forall a, P a -> surely Q (f a)) -> surely Q (dbind d f).
Proof.
  intros [Hne Hall] Hf. split.
  - destruct d as [|[w r] d]; [congruence|].
    inversion Hall as [|? ? (a & E & Ha) _]; subst. simpl in E. subst r.
    unfold dbind. simpl. destruct (Hf a Ha) as [Hfa _].
    destruct (f a); [congruence|discriminate].
  - unfold dbind. clear Hne. induction Hall as [|[w r] d (a & E & Ha) _ IH]; simpl.
    + constructor.
    + simpl in E. subst r. apply Forall_app. split; [|exact IH].
      destruct (Hf a Ha) as [_ Hfa]. apply Forall_map.
      eapply Forall_impl; [|exact Hfa]. now intros wr'.
Qed.

Lemma dbind_dlift (a : A) (f : A -> dist B) (Q : B -> Prop) :
  surely Q (f a) -> surely Q (dbind (dlift (Ok a)) f).
Proof.
  intros H. apply (surely_dbind (eq a)); [now apply surely_dret|].
  now intros ? <-.
Qed.
End Surely.

Lemma surely_discrete (a : list Q) :
  a <> [] -> surely (fun i => i < length a) (discrete a).
Proof.
  intros Ha. split.
  - unfold discrete. destruct a; [congruence|discriminate].
  - unfold discrete. apply Forall_map, Forall_forall. intros [i w] Hin.
    apply in_combine_l, in_seq in Hin. exists i. simpl. split; [trivial|lia].
Qed.

Lemma surely_choice {A} (l : list A) :
  l <> [] -> surely (fun x => In x l) (choice l).
Proof.
  intros Hl. destruct l as [|x l]; [congruence|]. unfold choice.
  set (l' := x :: l). split; [discriminate|].
  apply Forall_map, Forall_forall. intros y Hy. exists y. now split.
Qed.

Lemma dfor_range_S {S} (lo n : nat) (body : S -> nat -> dist S) (s0 : S) :
  dfor_range lo (Datatypes.S n) body s0 =
  dbind (dfor_range lo n body s0) (fun s => body s (lo + n)).
Proof. unfold dfor_range. now rewrite seq_S, fold_left_app. Qed.

Lemma surely_dfor_range {S} (I : nat -> S -> Prop) (lo n : nat)
    (body : S -> nat -> dist S) (s0 : S) :
  I 0 s0 ->
  (forall j s, j < n -> I j s -> surely (I (Datatypes.S j)) (body s (lo + j))) ->
  surely (I n) (dfor_range lo n body s0).
Proof.
  intros H0 Hstep. induction n as [|n IH].
  - now apply surely_dret.
  - rewrite dfor_range_S. apply (surely_dbind (I n)).
    + apply IH. intros; apply Hstep; auto.
    + intros s Hs. apply Hstep; auto.
Qed.

(** ** The sampler *)

Lemma list_set_ok {A} (l : list A) (i : nat) (x : A) :
  i < length l ->
  exists l', list_set l i x = Ok l' /\ length l' = length l.
Proof.
  intros H. unfold list_set. apply Nat.ltb_lt in H as H'. rewrite H'.
  eexists. split; [reflexivity|].
  rewrite length_app, length_firstn.
  change (length (x :: skipn (S i) l)) with (S (length (skipn (S i) l))).
  rewrite length_skipn. lia.
Qed.

Lemma inner_wf_sum_pos (inner : dict nat) :
  inner_wf inner -> 0 < list_sum (values inner).
Proof.
  intros [Hne Hall]. destruct inner as [|[c n] inner]; [congruence|].
  inversion Hall as [|? ? [_ Hn] _]; subst. simpl in *. lia.
Qed.

Lemma char_freq_ok (self : MarkovModel) (g c : str) :
  length g = _k self -> exists n, char_freq self g c = Ok n.
Proof.
  intros H. unfold char_freq. rewrite H, Nat.eqb_refl. simpl.
  destruct (lookup g (_st self)) as [inner|]; [|eauto].
  destruct (lookup c inner); eauto.
Qed.

Lemma kgram_freq_present (self : MarkovModel) (g : str) (inner : dict nat) :
  table_wf (_k self) (_st self) -> lookup g (_st self) = Some inner ->
  exists n, kgram_freq self g = Ok n /\ 0 < n.
Proof.
  intros Hwf E. destruct (wf_lookup _ _ _ _ Hwf E) as [Hlen Hin].
  unfold kgram_freq. rewrite Hlen, Nat.eqb_refl, E. simpl.
  eexists. split; [reflexivity|]. now apply inner_wf_sum_pos.
Qed.

Lemma py_div_ok (a b : nat) : 0 < b -> py_div a b = Ok (Z.of_nat a # Pos.of_nat b).
Proof.
  intros H. unfold py_div. destruct (Nat.eqb_spec b 0); [lia|trivial].
Qed.

Lemma rand_fill_ok (self : MarkovModel) (g : str) (hold : list str)
    (total_ : nat) (char_num : list Q) (i : nat) :
  length g = _k self -> 0 < total_ ->
  i < length hold -> length char_num = length hold ->
  exists char_num', rand_fill self g hold total_ char_num i = Ok char_num' /\
                    length char_num' = length hold.
Proof.
  intros Hg Ht Hi Hlen. unfold rand_fill, getelem.
  destruct (nth_error hold i) as [h|] eqn:E; [|apply nth_error_None in E; lia].
  simpl. destruct (char_freq_ok self g h Hg) as (f & ->). simpl.
  rewrite py_div_ok by exact Ht. simpl.
  destruct (list_set_ok char_num i (Z.of_nat f # Pos.of_nat total_)) as (l' & -> & Hl');
    [lia|]. exists l'. split; [trivial|lia].
Qed.

Lemma py_max_ok (a : list Q) : a <> [] -> exists m, py_max a = Ok m.
Proof. destruct a; [congruence|]. simpl. eauto. Qed.

(** On a k-gram of a well-formed table [rand] does not raise, and returns one
    of the successor symbols of the k-gram. *)
Lemma rand_surely (self : MarkovModel) (g : str) (inner : dict nat) :
  table_wf (_k self) (_st self) -> lookup g (_st self) = Some inner ->
  surely (fun c => In c (keys inner)) (rand self g).
Proof.
  intros Hwf E. destruct (wf_lookup _ _ _ _ Hwf E) as [Hg Hin].
  destruct (kgram_freq_present self g inner Hwf E) as (tot & Htot & Hpos).
  unfold rand. rewrite Hg, Nat.eqb_refl, E, Htot. simpl negb. cbv iota.
  assert (Hne : inner <> []) by apply Hin.
  assert (Hhold : length (keys inner) = length inner) by apply length_map.
  apply dbind_dlift.
  assert (Hfill : exists char_num,
             (if 1 <? length inner
              then for_range 0 (length (keys inner))
                     (rand_fill self g (keys inner) tot) (repeat 0%Q (length inner))
              else rand_fill self g (keys inner) tot (repeat 0%Q (length inner)) 0)
             = Ok char_num /\ length char_num = length (keys inner)).
  { destruct (1 <? length inner).
    - apply (for_range_inv (fun _ cn => length cn = length (keys inner))).
      + now rewrite repeat_length.
      + intros j cn Hj Hcn. now apply rand_fill_ok.
    - apply rand_fill_ok; trivial.
      + destruct inner; [congruence|simpl; lia].
      + now rewrite repeat_length. }
  destruct Hfill as (char_num & -> & Hlen).
  assert (Hcn : char_num <> []).
  { destruct char_num; [|discriminate]. destruct inner; [congruence|discriminate]. }
  apply dbind_dlift. destruct (py_max_ok char_num Hcn) as (mx & ->).
  apply dbind_dlift.
  apply (surely_dbind (fun i => i < length char_num)); [now apply surely_discrete|].
  intros char _. apply surely_choice.
  destruct inner; [congruence|discriminate].
Qed.

(** ** The generator *)

Lemma gen_S (self : MarkovModel) (g : str) (T : nat) :
  _k self <= T ->
  gen self g (S T) = dbind (gen self g T) (fun s => gen_body self s (T - _k self)).
Proof.
  intros H. unfold gen. replace (S T - _k self) with (S (T - _k self)) by lia.
  now rewrite dfor_range_S.
Qed.

(** The state of the loop of [gen] after [n] iterations: the seed followed
    by [n] symbols, whose last [k] symbols are a k-gram of the table. *)
Lemma gen_loop_surely (self : MarkovModel) (g : str) (n : nat) :
  0 < _k self -> table_wf (_k self) (_st self) -> closed (_st self) ->
  In g (keys (_st self)) ->
  surely (fun s => length s = _k self + n /\ firstn (_k self) s = g /\
                   In (skipn n s) (keys (_st self)))
         (dfor_range 0 n (gen_body self) g).
Proof.
  intros Hk Hwf Hcl Hg.
  assert (Hlen : length g = _k self).
  { destruct (In_keys_lookup _ _ Hg) as (inner & E).
    exact (proj1 (wf_lookup _ _ _ _ Hwf E)). }
  apply (surely_dfor_range
           (fun j s => length s = _k self + j /\ firstn (_k self) s = g /\
                       In (skipn j s) (keys (_st self)))).
  - rewrite Nat.add_0_r. repeat split; trivial.
    rewrite <- Hlen. apply firstn_all.
  - intros j s _ (Hs & Hpre & Hin). change (0 + j) with j. unfold gen_body.
    rewrite slice_nat. replace (_k self + j - j) with (_k self) by lia.
    rewrite (firstn_all2 (n := _k self)) by (rewrite length_skipn; lia).
    destruct (In_keys_lookup _ _ Hin) as (inner & E).
    apply (surely_dbind (fun c => In c (keys inner))); [now apply rand_surely|].
    intros c Hc. apply surely_dret.
    assert (Hc1 : length c = 1).
    { destruct (wf_lookup _ _ _ _ Hwf E) as [_ [_ Hall]].
      apply in_map_iff in Hc as ([c' n'] & <- & Hc). rewrite Forall_forall in Hall.
      exact (proj1 (Hall _ Hc)). }
    rewrite length_app, Hc1. split; [lia|]. split.
    + rewrite firstn_app. replace (_k self - length s) with 0 by lia.
      now rewrite firstn_O, app_nil_r.
    + rewrite skipn_app. replace (S j - length s) with 0 by lia.
      simpl (skipn 0 c). replace (S j) with (1 + j) by lia.
      rewrite <- skipn_skipn. apply Hcl, In_transitions.
      exists inner. split; [now apply lookup_In|exact Hc].
Qed.

Lemma init_closed (text : str) (k : nat) (m : MarkovModel) :
  0 < k -> k <= length text -> init text k = Ok m -> closed (_st m).
Proof.
  intros Hk Hlen ->%init_inv. simpl. rewrite newtxt_length by exact Hlen.
  intros g c. now apply table_after_closed.
Qed.

Lemma surely_In {A} (P : A -> Prop) (d : dist A) (w : Q) (r : result A) :
  surely P d -> In (w, r) d -> exists a, r = Ok a /\ P a.
Proof.
  intros [_ Hall] Hin. rewrite Forall_forall in Hall. exact (Hall _ Hin).
Qed.

(** C4. From a seed [g] of the table and for [T >= k], [gen(g, T)] returns a
    string of length [T] that starts with [g]; one more step of generation
    calls [rand] on the trailing [k] symbols of the string built so far and
    appends the symbol it returns. *)
Theorem gen_length_prefix (text : str) (k : nat) (m : MarkovModel) (g : str) (T : nat) :
  0 < k -> k <= length text -> init text k = Ok m ->
  In g (keys (_st m)) -> k <= T ->
  surely (fun s => length s = T /\ firstn k s = g) (gen m g T) /\
  gen m g (S T) = dbind (gen m g T) (fun s => gen_body m s (T - k)) /\
  (forall w s, In (w, Ok s) (gen m g T) ->
     gen_body m s (T - k) =
     dbind (rand m (trailing k s)) (fun c => dret (s ++ c))).
Proof.
  intros Hk Hlen Hm Hg HT.
  destruct (init_wf _ _ _ Hm) as [Ek Hwf].
  pose proof (init_closed _ _ _ Hk Hlen Hm) as Hcl.
  rewrite <- Ek in *.
  assert (Hsure : surely (fun s => length s = T /\ firstn (_k m) s = g) (gen m g T)).
  { eapply surely_mono; [apply (gen_loop_surely m g (T - _k m)); auto|].
    intros s (Hs & Hpre & _). split; [lia|exact Hpre]. }
  split; [exact Hsure|]. split; [now apply gen_S|].
  intros w s Hin. destruct (surely_In _ _ _ _ Hsure Hin) as (s' & [= <-] & Hs & _).
  unfold gen_body, trailing. rewrite slice_nat, Hs.
  replace (_k m + (T - _k m) - (T - _k m)) with (_k m) by lia.
  now rewrite firstn_all2 by (rewrite length_skipn; lia).
Qed.

Lemma gen_length_prefix_witness :
  surely (fun s => length s = 6 /\ firstn 2 s = py "aa")
         (gen model_aabaab (py "aa") 6) /\
  gen model_aabaab (py "aa") 7 =
    dbind (gen model_aabaab (py "aa") 6) (fun s => gen_body model_aabaab s (6 - 2)) /\
  (forall w s, In (w, Ok s) (gen model_aabaab (py "aa") 6) ->
     gen_body model_aabaab s (6 - 2) =
     dbind (rand model_aabaab (trailing 2 s)) (fun c => dret (s ++ c))).
Proof.
  apply (gen_length_prefix (py "aabaab") 2 model_aabaab (py "aa") 6).
  - lia.
  - simpl. lia.
  - reflexivity.
  - simpl. auto.
  - lia.
Defined.

(** C9. The table built from [(text, k)], [len(text) >= k], is closed under
    transition: with [g] and a successor [c] of [g] it holds [g[1:] + c].
    So from a seed of the table every k-gram [gen] passes to [rand] is a key
    of the table, and [gen] raises nothing. *)
Theorem init_closed_gen_safe (text : str) (k : nat) (m : MarkovModel) :
  0 < k -> k <= length text -> init text k = Ok m ->
  (forall g inner c, lookup g (_st m) = Some inner -> In c (keys inner) ->
                     In (skipn 1 g ++ c) (keys (_st m))) /\
  (forall g, In g (keys (_st m)) ->
     (forall n, surely (fun s => In (slice s (Z.of_nat n) (Z.of_nat (k + n)))
                                    (keys (_st m)))
                       (gen m g (k + n))) /\
     (forall T, gen m g T <> [] /\ forall w e, ~ In (w, Err e) (gen m g T))).
Proof.
  intros Hk Hlen Hm.
  destruct (init_wf _ _ _ Hm) as [Ek Hwf].
  pose proof (init_closed _ _ _ Hk Hlen Hm) as Hcl.
  rewrite <- Ek in *. split.
  - intros g inner c E Hc. apply Hcl, In_transitions.
    exists inner. split; [now apply lookup_In|exact Hc].
  - intros g Hg. split.
    + intros n. unfold gen. replace (_k m + n - _k m) with n by lia.
      eapply surely_mono; [apply (gen_loop_surely m g n); auto|].
      intros s (Hs & _ & Hin). rewrite slice_nat.
      replace (_k m + n - n) with (_k m) by lia.
      now rewrite firstn_all2 by (rewrite length_skipn; lia).
    + intros T. pose proof (gen_loop_surely m g (T - _k m) Hk Hwf Hcl Hg) as Hs.
      split; [apply Hs|]. intros w e Hin.
      destruct (surely_In _ _ _ _ Hs Hin) as (s & [=] & _).
Qed.

Lemma init_closed_gen_safe_witness :
  (forall g inner c, lookup g (_st model_aabaab) = Some inner -> In c (keys inner) ->
                     In (skipn 1 g ++ c) (keys (_st model_aabaab))) /\
  (forall g, In g (keys (_st model_aabaab)) ->
     (forall n, surely (fun s => In (slice s (Z.of_nat n) (Z.of_nat (2 + n)))
                                    (keys (_st model_aabaab)))
                       (gen model_aabaab g (2 + n))) /\
     (forall T, gen model_aabaab g T <> [] /\
                forall w e, ~ In (w, Err e) (gen model_aabaab g T))).
Proof.
  apply (init_closed_gen_safe (py "aabaab") 2 model_aabaab).
  - lia.
  - simpl. lia.
  - reflexivity.
Defined.

(** C7. The worked example: the table of "aabaab" for [k = 2], its
    frequencies, and the one string [gen("aa", 6)] can return. *)
Theorem worked_example_aabaab :
  init (py "aabaab") 2 =
    Ok (mkModel 2 [(py "aa", [(py "b", 2)]); (py "ab", [(py "a", 2)]);
                   (py "ba", [(py "a", 2)])]) /\
  kgram_freq model_aabaab (py "aa") = Ok 2 /\
  char_freq model_aabaab (py "aa") (py "b") = Ok 2 /\
  char_freq model_aabaab (py "aa") (py "a") = Ok 0 /\
  (forall g inner, In (g, inner) (_st model_aabaab) -> length (keys inner) = 1) /\
  outcomes (gen model_aabaab (py "aa") 6) = [Ok (py "aabaab")] /\
  (prob (gen model_aabaab (py "aa") 6) (returns (py "aabaab")) == 1)%Q.
Proof.
  repeat split; try reflexivity.
  intros g inner [[= <- <-]|[[= <- <-]|[[= <- <-]|[]]]]; reflexivity.
Qed.

(** C1, at a k-gram with successors of different frequencies.  In the model
    of "aaab" for [k = 1] the symbol "a" follows "a" twice and "b" once, so
    the weighted distribution gives "a" the probability 2/3; [rand("a")]
    computes these weights and then returns [random.choice(hold)]: "a" and
    "b" with probability 1/2 each. *)
Theorem rand_is_uniform_over_successors :
  init (py "aaab") 1 = Ok model_aaab /\
  char_freq model_aaab (py "a") (py "a") = Ok 2 /\
  char_freq model_aaab (py "a") (py "b") = Ok 1 /\
  kgram_freq model_aaab (py "a") = Ok 3 /\
  (prob (rand model_aaab (py "a")) (returns (py "a")) == 1 # 2)%Q /\
  (prob (rand model_aaab (py "a")) (returns (py "b")) == 1 # 2)%Q /\
  ~ (prob (rand model_aaab (py "a")) (returns (py "a")) == 2 # 3)%Q.
Proof.
  repeat split; try reflexivity. vm_compute. discriminate.
Qed.

(** ** Maximum and position of the maximum *)

Lemma fold_max_spec (a : list Q) (x : Q) :
  let m := fold_left (fun m y => if Qle_bool y m then m else y) a x in
  (x <= m)%Q /\ (forall y, In y a -> (y <= m)%Q) /\ In m (x :: a).
Proof.
  revert x. induction a as [|y a IH]; intros x; simpl.
  - split; [apply Qle_refl|]. split; [intros _ []|now left].
  - set (x' := if Qle_bool y x then x else y).
    destruct (IH x') as (Hx' & Hall & Hin).
    assert (Hxy : (x <= x')%Q /\ (y <= x')%Q).
    { unfold x'. destruct (Qle_bool y x) eqn:E.
      - apply Qle_bool_iff in E. split; [apply Qle_refl|exact E].
      - split; [|apply Qle_refl]. apply Qlt_le_weak, Qnot_le_lt.
        intros H. apply Qle_bool_iff in H. congruence. }
    destruct Hxy as [Hx Hy]. split; [eapply Qle_trans; eauto|]. split.
    + intros z [<-|Hz]; [eapply Qle_trans; eauto|auto].
    + destruct Hin as [Hm|Hm]; [|auto].
      unfold x' in Hm. destruct (Qle_bool y x); auto.
Qed.

Lemma py_index_spec (a : list Q) (m : Q) :
  (exists y, In y a /\ (y == m)%Q) ->
  exists j y, py_index a m = Ok j /\ nth_error a j = Some y /\ (y == m)%Q /\
              forall j' y', j' < j -> nth_error a j' = Some y' -> ~ (y' == m)%Q.
Proof.
  induction a as [|x a IH]; intros (y & Hin & Hy); [destruct Hin|]. simpl.
  destruct (Qeq_bool x m) eqn:E.
  - apply Qeq_bool_iff in E. exists 0, x. repeat split; trivial. intros; lia.
  - assert (Hx : ~ (x == m)%Q) by (intros H; apply Qeq_bool_iff in H; congruence).
    destruct Hin as [->|Hin]; [contradiction|].
    destruct IH as (j & z & -> & Hz & Hzm & Hbefore); [eauto|].
    exists (S j), z. simpl. repeat split; trivial.
    intros [|j'] y' Hj Hy'; simpl in Hy'.
    + now injection Hy' as <-.
    + apply (Hbefore j'); [lia|exact Hy'].
Qed.

(** [argmax] of a non-empty list: the first position of a greatest value. *)
Lemma argmax_spec (a : list Q) :
  a <> [] ->
  exists j y, argmax a = Ok j /\ nth_error a j = Some y /\
              (forall y', In y' a -> (y' <= y)%Q) /\
              (forall j' y', j' < j -> nth_error a j' = Some y' -> (y' < y)%Q).
Proof.
  intros Ha. destruct a as [|x a]; [congruence|]. unfold argmax.
  simpl py_max. cbv beta iota delta [rbind].
  set (m := fold_left _ a x).
  destruct (fold_max_spec a x) as (Hx & Hall & Hin). fold m in Hx, Hall, Hin.
  destruct (py_index_spec (x :: a) m) as (j & y & Hj & Hy & Hym & Hbefore).
  { exists m. split; [exact Hin|apply Qeq_refl]. }
  assert (Hle : forall y', In y' (x :: a) -> (y' <= m)%Q).
  { intros y' [<-|H]; auto. }
  exists j, y. repeat split; trivial.
  - intros y' Hy'. rewrite Hym. auto.
  - intros j' y' Hlt Hy'. rewrite Hym.
    assert (Hy'm : (y' <= m)%Q) by (eapply Hle, nth_error_In; eauto).
    apply Qle_lteq in Hy'm as [H|H]; [exact H|].
    exfalso. eapply Hbefore; eauto.
Qed.

(** ** The likelihood loop *)

Lemma mem_lookup {V} (g : str) (d : dict V) :
  mem g d = true -> exists v, lookup g d = Some v.
Proof. unfold mem. destruct (lookup g d); [eauto|discriminate]. Qed.

(** The quotient the loop multiplies in for a window of the table. *)
Lemma likelihood_factor (self : MarkovModel) (sub next : str) :
  table_wf (_k self) (_st self) -> mem sub (_st self) = true ->
  exists cal1 cal2,
    char_freq self sub next = Ok cal1 /\ kgram_freq self sub = Ok cal2 /\
    py_div cal1 cal2 = Ok (cond_prob self sub next).
Proof.
  intros Hwf (inner & E)%mem_lookup.
  destruct (wf_lookup _ _ _ _ Hwf E) as [Hlen _].
  destruct (char_freq_ok self sub next Hlen) as (cal1 & H1).
  destruct (kgram_freq_present self sub inner Hwf E) as (cal2 & H2 & Hpos).
  exists cal1, cal2. repeat split; trivial.
  unfold cond_prob. rewrite H1, H2. now apply py_div_ok.
Qed.

(** On a well-formed table the loop raises nothing. *)
Lemma likelihood_ok (self : MarkovModel) (ntxt : str) (bs : list nat) (p : Q) :
  table_wf (_k self) (_st self) -> exists q, likelihood self ntxt bs p = Ok q.
Proof.
  intros Hwf. revert p. induction bs as [|b bs IH]; intros p; simpl; [eauto|].
  destruct (mem _ (_st self)) eqn:E; [|eauto].
  destruct (likelihood_factor self _
              (slice ntxt (Z.of_nat (_k self + b)) (Z.of_nat (_k self + b + 1)))
              Hwf E) as (cal1 & cal2 & H1 & H2 & H3).
  rewrite H1. cbn [rbind]. rewrite H2. cbn [rbind]. rewrite H3. cbn [rbind].
  apply IH.
Qed.

(** ** Replacing the first marker *)

Lemma replace_first_app (b a : str) (old : ascii) (new : str) :
  ~ In old b -> replace_first (b ++ old :: a) old new = b ++ new ++ a.
Proof.
  induction b as [|x b IH]; simpl; intros Hb.
  - now rewrite Ascii.eqb_refl.
  - destruct (Ascii.eqb_spec x old) as [->|_]; [tauto|].
    f_equal. apply IH. tauto.
Qed.

Lemma replace_first_at (s : str) (i : nat) (new : str) :
  nth_error s i = Some marker -> ~ In marker (firstn i s) ->
  replace_first s marker new = replace_at s i new.
Proof.
  intros Hi Hpre. unfold replace_at.
  rewrite <- (replace_first_app _ _ marker new Hpre). f_equal.
  rewrite <- (firstn_skipn i s) at 1. f_equal.
  replace (S i) with (1 + i) by lia. rewrite <- skipn_skipn.
  rewrite <- (Nat.add_0_r i), <- nth_error_skipn in Hi.
  destruct (skipn i s); simpl in *; congruence.
Qed.

(** ** One repair *)

Lemma candidates_loop (self : MarkovModel) (context : str) (keyhold : list str) :
  table_wf (_k self) (_st self) ->
  for_range 0 (length keyhold) (candidate_body self context keyhold) [] =
  Ok (map (candidate_p self context) keyhold).
Proof.
  intros Hwf.
  destruct (for_range_inv
              (fun j pr => pr = map (candidate_p self context) (firstn j keyhold))
              0 (length keyhold) (candidate_body self context keyhold) [])
    as (pr & -> & ->); [reflexivity| |now rewrite firstn_all].
  intros j pr Hj ->. change (0 + j) with j. unfold candidate_body, getelem.
  destruct (nth_error keyhold j) as [c|] eqn:E; [|apply nth_error_None in E; lia].
  cbn [rbind]. pose proof (likelihood_ok self (replace_first context marker c)
                       (seq 0 (_k self + 1)) 1%Q Hwf) as (q & Hq).
  rewrite Hq. cbn [rbind]. eexists. split; [reflexivity|].
  rewrite <- (firstn_snoc _ _ _ E), map_app. cbn [map]. unfold candidate_p.
  now rewrite Hq.
Qed.

(** At a marker whose preceding context is a key of a well-formed table, the
    iteration raises nothing: it replaces the first marker of the string by
    the first of the candidates whose [p] is greatest. *)
Lemma replace_body_marker (self : MarkovModel) (corrupted : str) (i : nat)
    (inner : dict nat) :
  table_wf (_k self) (_st self) ->
  nth_error corrupted i = Some marker ->
  lookup (kgram_b (_k self) corrupted i) (_st self) = Some inner ->
  let context := kgram_b (_k self) corrupted i ++ [marker] ++
                 kgram_a (_k self) corrupted i in
  exists j best,
    nth_error (keys inner) j = Some best /\
    replace_body self corrupted i = Ok (replace_first corrupted marker best) /\
    (forall c, In c (keys inner) ->
               (candidate_p self context c <= candidate_p self context best)%Q) /\
    (forall j' c, j' < j -> nth_error (keys inner) j' = Some c ->
                  (candidate_p self context c < candidate_p self context best)%Q).
Proof.
  intros Hwf Hi E context.
  destruct (wf_lookup _ _ _ _ Hwf E) as [_ [Hne _]].
  assert (Hprob : map (candidate_p self context) (keys inner) <> []).
  { destruct inner; [congruence|discriminate]. }
  destruct (argmax_spec _ Hprob) as (j & y & Hj & Hy & Hmax & Hfirst).
  rewrite nth_error_map in Hy.
  destruct (nth_error (keys inner) j) as [best|] eqn:Eb; [|discriminate].
  injection Hy as <-. exists j, best. split; [exact Eb|]. split; [|split].
  - unfold replace_body, getitem. rewrite Hi. cbn [rbind].
    rewrite str_eqb_refl. cbv zeta. fold context.
    rewrite E, candidates_loop by exact Hwf.
    cbn [rbind]. rewrite Hj. cbn [rbind]. unfold getelem. now rewrite Eb.
  - intros c Hc. apply Hmax. now apply in_map.
  - intros j' c Hlt Hc. apply (Hfirst j'); [exact Hlt|].
    now rewrite nth_error_map, Hc.
Qed.

(** C2, on the example of the specification and at an input where the
    marker is a symbol of the text.  On the model of "aabaab" for [k = 2],
    [replace_unknown("aa~aab")] returns "aabaab".  In the model of "a~xy"
    for [k = 1], the run on "a~x~a" reaches position 3 with the string
    unchanged (the marker at position 1 was replaced by "~", the one successor
    of "a"); there [kgram_b = "x"] is a key, both windows hold no marker, the
    one candidate is "y", and the iteration replaces the first marker of the
    string, at position 1, not the one at position 3: the result is "ayx~a",
    where replacing the marker of position 3 gives "a~xya".  (All quotients
    of these two runs are 1, so that rounding plays no part.) *)
Theorem replace_unknown_marker_symbol :
  init (py "aabaab") 2 = Ok model_aabaab /\
  replace_unknown model_aabaab (py "aa~aab") = Ok (py "aabaab") /\
  init (py "a~xy") 1 = Ok model_axy /\
  for_range 0 3 (replace_body model_axy) (py "a~x~a") = Ok (py "a~x~a") /\
  nth_error (py "a~x~a") 3 = Some marker /\
  kgram_b 1 (py "a~x~a") 3 = py "x" /\ kgram_a 1 (py "a~x~a") 3 = py "a" /\
  lookup (py "x") (_st model_axy) = Some [(py "y", 1)] /\
  replace_body model_axy (py "a~x~a") 3 = Ok (py "ayx~a") /\
  replace_at (py "a~x~a") 3 (py "y") = py "a~xya" /\
  replace_unknown model_axy (py "a~x~a") = Ok (py "ayx~a") /\
  ~ (exists best, In best (keys [(py "y", 1)]) /\
       replace_body model_axy (py "a~x~a") 3 = Ok (replace_at (py "a~x~a") 3 best)).
Proof.
  repeat split; try reflexivity.
  intros (best & [<-|[]] & H). vm_compute in H. discriminate.
Qed.

(** X18. At a marker whose context [kgram_b] is a key of the table of a
    constructed model, [table[kgram_b]] has a first candidate and the
    iteration raises nothing; when moreover no marker is left before the
    position and every candidate gets the likelihood 0, the marker is replaced
    by the first candidate and the loop goes on from the string so
    repaired. *)
Theorem replace_unknown_zero_likelihood (text : str) (k : nat) (m : MarkovModel)
    (corrupted : str) (i : nat) (inner : dict nat) :
  k <= length text -> init text k = Ok m ->
  nth_error corrupted i = Some marker ->
  lookup (kgram_b k corrupted i) (_st m) = Some inner ->
  exists first rest,
    keys inner = first :: rest /\
    (exists s', replace_body m corrupted i = Ok s') /\
    (~ In marker (firstn i corrupted) ->
     (forall c, In c (keys inner) ->
        (candidate_p m (kgram_b k corrupted i ++ [marker] ++ kgram_a k corrupted i) c
         == 0)%Q) ->
     replace_body m corrupted i = Ok (replace_at corrupted i first) /\
     forall n, for_range i (S n) (replace_body m) corrupted =
               for_range (S i) n (replace_body m) (replace_at corrupted i first)).
Proof.
  intros _ Hm Hi E.
  destruct (init_wf _ _ _ Hm) as [Ek Hwf]. rewrite <- Ek in *.
  destruct (replace_body_marker m corrupted i inner Hwf Hi E)
    as (j & best & Hbest & Hbody & _ & Hfirst).
  destruct (keys inner) as [|first rest] eqn:Ekeys; [now destruct j|].
  exists first, rest. split; [reflexivity|]. split; [eauto|].
  intros Hpre Hzero.
  assert (Hj : j = 0).
  { destruct j as [|j]; trivial. exfalso.
    assert (H : (candidate_p m (kgram_b (_k m) corrupted i ++ [marker] ++
                                kgram_a (_k m) corrupted i) first
                 < candidate_p m (kgram_b (_k m) corrupted i ++ [marker] ++
                                  kgram_a (_k m) corrupted i) best)%Q).
    { apply (Hfirst 0); [lia|reflexivity]. }
    rewrite (Hzero first), (Hzero best) in H.
    - exact (Qlt_irrefl _ H).
    - eapply nth_error_In; eauto.
    - now left. }
  subst j. injection Hbest as <-.
  assert (Hstep : replace_body m corrupted i = Ok (replace_at corrupted i first)).
  { rewrite Hbody. f_equal. now apply replace_first_at. }
  split; [exact Hstep|]. intros n. now apply for_range_cons.
Qed.

Lemma replace_unknown_zero_likelihood_witness :
  exists first rest,
    keys [(py "a", 2)] = first :: rest /\
    (exists s', replace_body model_aabaab (py "aab~") 3 = Ok s') /\
    (~ In marker (firstn 3 (py "aab~")) ->
     (forall c, In c (keys [(py "a", 2)]) ->
        (candidate_p model_aabaab
           (kgram_b 2 (py "aab~") 3 ++ [marker] ++ kgram_a 2 (py "aab~") 3) c
         == 0)%Q) ->
     replace_body model_aabaab (py "aab~") 3 = Ok (replace_at (py "aab~") 3 first) /\
     forall n, for_range 3 (S n) (replace_body model_aabaab) (py "aab~") =
               for_range 4 n (replace_body model_aabaab)
                 (replace_at (py "aab~") 3 first)).
Proof.
  apply (replace_unknown_zero_likelihood (py "aabaab") 2 model_aabaab
           (py "aab~") 3 [(py "a", 2)]).
  - simpl. lia.
  - reflexivity.
  - reflexivity.
  - reflexivity.
Defined.

(** The hypotheses of the second part hold on that input: no marker before
    position 3 of "aab~", and the one candidate is scored 0 because the
    window after the marker is empty. *)
Lemma zero_likelihood_at_end :
  ~ In marker (firstn 3 (py "aab~")) /\
  (forall c, In c (keys [(py "a", 2)]) ->
     (candidate_p model_aabaab
        (kgram_b 2 (py "aab~") 3 ++ [marker] ++ kgram_a 2 (py "aab~") 3) c
      == 0)%Q) /\
  replace_unknown model_aabaab (py "aab~") = Ok (py "aaba").
Proof.
  split; [|split].
  - vm_compute. intros [H|[H|[H|[]]]]; discriminate.
  - intros c [<-|[]]. reflexivity.
  - reflexivity.
Qed.

(** C10, at an input where the marker is a symbol of the text.  In the
    model of "a~xy" for [k = 1], the run on "a~x~" reaches position 3 with
    the string unchanged; there [kgram_b = "x"] is a key, its one candidate
    "y" is scored 0 because no symbol follows the marker, and the iteration
    replaces the first marker of the string, at position 1, not the one at
    position 3: the result is "ayx~", where replacing the marker of position
    3 gives "a~xy". *)
Theorem replace_unknown_zero_marker_symbol :
  init (py "a~xy") 1 = Ok model_axy /\
  for_range 0 3 (replace_body model_axy) (py "a~x~") = Ok (py "a~x~") /\
  nth_error (py "a~x~") 3 = Some marker /\
  lookup (kgram_b 1 (py "a~x~") 3) (_st model_axy) = Some [(py "y", 1)] /\
  (candidate_p model_axy
     (kgram_b 1 (py "a~x~") 3 ++ [marker] ++ kgram_a 1 (py "a~x~") 3) (py "y")
   == 0)%Q /\
  replace_body model_axy (py "a~x~") 3 = Ok (py "ayx~") /\
  replace_at (py "a~x~") 3 (py "y") = py "a~xy" /\
  replace_unknown model_axy (py "a~x~") = Ok (py "ayx~") /\
  replace_body model_axy (py "a~x~") 3 <> Ok (replace_at (py "a~x~") 3 (py "y")).
Proof.
  repeat split; try reflexivity. vm_compute. discriminate.
Qed.

(** * Further properties of the class *)

(** ** Lookup after assignment *)

Section LookupSetitem.
Context {V : Type}.
Implicit Types (d : dict V) (g : str) (v : V).

Lemma lookup_setitem_eq g v d : lookup g (setitem g v d) = Some v.
Proof.
  induction d as [|[k' w] d IH]; simpl.
  - now rewrite str_eqb_refl.
  - destruct (str_eqb g k') eqn:E; simpl; [now rewrite str_eqb_refl|].
    now rewrite E.
Qed.

Lemma lookup_setitem_neq g g' v d :
  g <> g' -> lookup g' (setitem g v d) = lookup g' d.
Proof.
  intros Hne. induction d as [|[k' w] d IH]; simpl.
  - assert (E : str_eqb g' g = false) by (apply str_eqb_neq; congruence).
    now rewrite E.
  - destruct (str_eqb g k') eqn:E; simpl.
    + apply str_eqb_eq in E. subst k'.
      assert (E' : str_eqb g' g = false) by (apply str_eqb_neq; congruence).
      now rewrite E'.
    + destruct (str_eqb g' k'); trivial.
Qed.
End LookupSetitem.

Lemma str_eqb_sym (a b : str) : str_eqb a b = str_eqb b a.
Proof.
  destruct (str_eqb a b) eqn:E.
  - apply str_eqb_eq in E. subst. symmetry. apply str_eqb_refl.
  - apply str_eqb_neq in E. symmetry. apply str_eqb_neq. congruence.
Qed.

(** ** What an iteration of the construction adds to the counts *)

Lemma stored_count_add (st : table) (hold c0 g c : str) :
  stored_count (add_transition st hold c0) g c =
  stored_count st g c + (if str_eqb hold g && str_eqb c0 c then 1 else 0).
Proof.
  unfold stored_count.
  assert (Hinner : forall inner n,
             match lookup c0 inner with Some m => m | None => 0 end + 1 = n ->
             match lookup c (setitem c0 n inner) with Some m => m | None => 0 end =
             match lookup c inner with Some m => m | None => 0 end +
             (if str_eqb c0 c then 1 else 0)).
  { intros inner n Hn. destruct (str_eqb c0 c) eqn:Ec.
    - apply str_eqb_eq in Ec. subst c. rewrite lookup_setitem_eq. lia.
    - apply str_eqb_neq in Ec. rewrite lookup_setitem_neq by exact Ec. lia. }
  destruct (str_eqb hold g) eqn:Eg.
  - apply str_eqb_eq in Eg. subst g. unfold add_transition. simpl andb.
    destruct (lookup hold st) as [inner|] eqn:E.
    + destruct (lookup c0 inner) as [n|] eqn:E0; rewrite lookup_setitem_eq;
        apply Hinner; rewrite E0; lia.
    + rewrite lookup_setitem_eq. now apply (Hinner []).
  - apply str_eqb_neq in Eg. simpl andb. rewrite Nat.add_0_r.
    unfold add_transition.
    destruct (lookup hold st) as [inner|]; [destruct (lookup c0 inner)|];
      now rewrite lookup_setitem_neq by exact Eg.
Qed.

Lemma stored_sum_add (st : table) (hold c0 g : str) :
  stored_sum (add_transition st hold c0) g =
  stored_sum st g + (if str_eqb hold g then 1 else 0).
Proof.
  unfold stored_sum. destruct (str_eqb hold g) eqn:Eg.
  - apply str_eqb_eq in Eg. subst g. unfold add_transition.
    destruct (lookup hold st) as [inner|] eqn:E.
    + destruct (lookup c0 inner) as [n|] eqn:E0; rewrite lookup_setitem_eq.
      * pose proof (sum_setitem_present c0 n (n + 1) inner E0). lia.
      * now rewrite sum_setitem_absent.
    + rewrite lookup_setitem_eq. reflexivity.
  - apply str_eqb_neq in Eg. rewrite Nat.add_0_r. unfold add_transition.
    destruct (lookup hold st) as [inner|]; [destruct (lookup c0 inner)|];
      now rewrite lookup_setitem_neq by exact Eg.
Qed.

Lemma filter_seq_S (f : nat -> bool) (n : nat) :
  length (filter f (seq 0 (S n))) =
  length (filter f (seq 0 n)) + (if f n then 1 else 0).
Proof.
  rewrite seq_S, filter_app, length_app. simpl. now destruct (f n).
Qed.

Lemma stored_count_after (k : nat) (newtxt : str) (n : nat) (g c : str) :
  stored_count (table_after k newtxt n) g c = occurrences_followed newtxt k n g c.
Proof.
  unfold occurrences_followed. induction n as [|n IH]; [reflexivity|].
  simpl table_after. now rewrite stored_count_add, IH, filter_seq_S.
Qed.

Lemma stored_sum_after (k : nat) (newtxt : str) (n : nat) (g : str) :
  stored_sum (table_after k newtxt n) g = occurrences newtxt k n g.
Proof.
  unfold occurrences. induction n as [|n IH]; [reflexivity|].
  simpl table_after. now rewrite stored_sum_add, IH, filter_seq_S.
Qed.

Lemma add_transition_distinct (st : table) (hold c : str) :
  inner_keys_distinct st -> inner_keys_distinct (add_transition st hold c).
Proof.
  intros Hst. unfold inner_keys_distinct, add_transition.
  destruct (lookup hold st) as [inner|] eqn:E.
  - assert (Hi : NoDup (keys inner)).
    { apply lookup_In in E. unfold inner_keys_distinct in Hst.
      rewrite Forall_forall in Hst. exact (Hst _ E). }
    destruct (lookup c inner); apply Forall_setitem; trivial;
      simpl; now apply NoDup_setitem.
  - apply Forall_setitem; trivial. simpl. repeat constructor. intros [].
Qed.

Lemma table_after_distinct (k : nat) (newtxt : str) (n : nat) :
  inner_keys_distinct (table_after k newtxt n).
Proof.
  induction n as [|n IH]; simpl; [constructor|now apply add_transition_distinct].
Qed.

(** ** Construction and the accessors *)

(** X1. For an order [k >= 0] construction raises on no text: it returns a
    model, whose [order()] is the [k] it was given, and which has counted as
    many transitions as the circular text has windows of length [k]. *)
Theorem init_returns_order (text : str) (k : nat) :
  exists m, init text k = Ok m /\ order m = k /\
            total (_st m) = length (circular text k) - k.
Proof.
  rewrite init_total. eexists. split; [reflexivity|]. split; [reflexivity|].
  simpl. apply total_table_after.
Qed.

(** X2. For a text of length at least [k] and a query [g] of length [k],
    [char_freq(g, c)] is the number of positions of the text at which [g]
    starts, read circularly, and is followed by [c]. *)
Theorem char_freq_counts_followers (text : str) (k : nat) (m : MarkovModel) (g c : str) :
  k <= length text -> init text k = Ok m -> length g = k ->
  char_freq m g c =
  Ok (occurrences_followed (circular text k) k (length text) g c).
Proof.
  intros Hlen ->%init_inv Hg. unfold char_freq. simpl.
  rewrite Hg, Nat.eqb_refl, newtxt_length by exact Hlen. simpl.
  rewrite <- stored_count_after. unfold stored_count, circular.
  destruct (lookup g _) as [inner|]; trivial. now destruct (lookup c inner).
Qed.

Lemma char_freq_counts_followers_witness :
  char_freq model_aaab (py "a") (py "a") =
  Ok (occurrences_followed (circular (py "aaab") 1) 1 (length (py "aaab"))
        (py "a") (py "a")).
Proof.
  apply (char_freq_counts_followers (py "aaab") 1 model_aaab (py "a") (py "a")).
  - simpl. lia.
  - reflexivity.
  - reflexivity.
Defined.

(** X3. For a text of length at least [k] and a query [g] of length [k],
    [kgram_freq(g)] is the number of positions of the text at which [g]
    starts, read circularly. *)
Theorem kgram_freq_counts_occurrences (text : str) (k : nat) (m : MarkovModel) (g : str) :
  k <= length text -> init text k = Ok m -> length g = k ->
  kgram_freq m g = Ok (occurrences (circular text k) k (length text) g).
Proof.
  intros Hlen ->%init_inv Hg. unfold kgram_freq. simpl.
  rewrite Hg, Nat.eqb_refl, newtxt_length by exact Hlen. simpl.
  rewrite <- stored_sum_after. unfold stored_sum, circular.
  now destruct (lookup g _).
Qed.

Lemma kgram_freq_counts_occurrences_witness :
  kgram_freq model_aaab (py "a") =
  Ok (occurrences (circular (py "aaab") 1) 1 (length (py "aaab")) (py "a")).
Proof.
  apply (kgram_freq_counts_occurrences (py "aaab") 1 model_aaab (py "a")).
  - simpl. lia.
  - reflexivity.
  - reflexivity.
Defined.

Lemma Forall2_keys_values {V} (P : str -> V -> Prop) (d : dict V) :
  (forall c v, In (c, v) d -> P c v) -> Forall2 P (keys d) (values d).
Proof.
  induction d as [|[c v] d IH]; intros H; simpl; constructor.
  - apply H. now left.
  - apply IH. intros; apply H; now right.
Qed.

Lemma init_distinct (text : str) (k : nat) (m : MarkovModel) (g : str)
    (inner : dict nat) :
  init text k = Ok m -> lookup g (_st m) = Some inner -> NoDup (keys inner).
Proof.
  intros ->%init_inv E%lookup_In. simpl in E.
  pose proof (table_after_distinct k (text ++ firstn k text)
                (length (text ++ firstn k text) - k)) as H.
  unfold inner_keys_distinct in H. rewrite Forall_forall in H. exact (H _ E).
Qed.

(** X4. For a k-gram [g] of the table, [kgram_freq(g)] is the sum of
    [char_freq(g, c)] over the successor symbols [c] stored under [g]. *)
Theorem kgram_freq_sums_char_freq (text : str) (k : nat) (m : MarkovModel)
    (g : str) (inner : dict nat) :
  init text k = Ok m -> lookup g (_st m) = Some inner ->
  exists freqs,
    Forall2 (fun c f => char_freq m g c = Ok f) (keys inner) freqs /\
    kgram_freq m g = Ok (list_sum freqs).
Proof.
  intros Hm E. destruct (init_wf _ _ _ Hm) as [Ek Hwf]. rewrite <- Ek in Hwf.
  destruct (wf_lookup _ _ _ _ Hwf E) as [Hg _].
  pose proof (init_distinct _ _ _ _ _ Hm E) as Hnd.
  exists (values inner). split.
  - apply Forall2_keys_values. intros c n Hc. unfold char_freq.
    rewrite Hg, Nat.eqb_refl, E. simpl.
    now rewrite (NoDup_lookup c n inner Hnd Hc).
  - unfold kgram_freq. now rewrite Hg, Nat.eqb_refl, E.
Qed.

Lemma kgram_freq_sums_char_freq_witness :
  exists freqs,
    Forall2 (fun c f => char_freq model_aaab (py "a") c = Ok f)
            (keys [(py "a", 2); (py "b", 1)]) freqs /\
    kgram_freq model_aaab (py "a") = Ok (list_sum freqs).
Proof.
  apply (kgram_freq_sums_char_freq (py "aaab") 1 model_aaab (py "a")
           [(py "a", 2); (py "b", 1)]).
  - reflexivity.
  - reflexivity.
Defined.

(** X5. On the empty text construction returns the empty table, for every
    order [k >= 0]: every frequency of a query of length [k] is then 0 and
    [rand] raises the unknown-kgram error on it. *)
Theorem init_empty_text (k : nat) :
  init [] k = Ok (mkModel k []) /\
  forall g, length g = k ->
    kgram_freq (mkModel k []) g = Ok 0 /\
    (forall c, char_freq (mkModel k []) g c = Ok 0) /\
    rand (mkModel k []) g = dlift (Err UnknownKgram).
Proof.
  split.
  - rewrite init_total. rewrite firstn_nil. reflexivity.
  - intros g Hg. unfold kgram_freq, char_freq, rand. simpl.
    rewrite Hg, Nat.eqb_refl. auto.
Qed.

Lemma init_empty_text_witness :
  kgram_freq (mkModel 2 []) (py "ab") = Ok 0 /\
  (forall c, char_freq (mkModel 2 []) (py "ab") c = Ok 0) /\
  rand (mkModel 2 []) (py "ab") = dlift (Err UnknownKgram).
Proof.
  apply (proj2 (init_empty_text 2) (py "ab")). reflexivity.
Defined.

(** ** Probabilities *)

Lemma prob_app {A} (d1 d2 : dist A) (f : result A -> bool) :
  (prob (d1 ++ d2) f == prob d1 f + prob d2 f)%Q.
Proof.
  induction d1 as [|[w r] d1 IH]; simpl.
  - ring.
  - destruct (f r); rewrite IH; ring.
Qed.

Lemma prob_scale {A} (w : Q) (d : dist A) (f : result A -> bool) :
  (prob (map (fun wr' => ((w * fst wr')%Q, snd wr')) d) f == w * prob d f)%Q.
Proof.
  induction d as [|[w' r] d IH]; simpl.
  - ring.
  - destruct (f r); rewrite IH; ring.
Qed.

Lemma prob_dbind_dlift {A B} (a : A) (k : A -> dist B) (f : result B -> bool) :
  (prob (dbind (dlift (Ok a)) k) f == prob (k a) f)%Q.
Proof.
  unfold dbind, dlift. simpl. rewrite app_nil_r, prob_scale. ring.
Qed.

(** When the continuation does not depend on the value drawn, a draw that
    raises nothing only scales the probabilities by its weight. *)
Lemma prob_dbind_const {A B} (P : A -> Prop) (d : dist A) (d' : dist B)
    (f : result B -> bool) :
  surely P d -> (prob (dbind d (fun _ => d')) f == mass d * prob d' f)%Q.
Proof.
  intros [_ Hall]. unfold mass, dbind.
  induction Hall as [|[w r] d (a & E & _) _ IH]; simpl.
  - ring.
  - simpl in E. subst r. rewrite prob_app, prob_scale, IH. ring.
Qed.

Lemma mass_discrete_from (a : list Q) (lo : nat) :
  (mass (map (fun iw : nat * Q => (snd iw, Ok (fst iw)))
             (combine (seq lo (length a)) a)) == Qsum a)%Q.
Proof.
  unfold mass. revert lo. induction a as [|x a IH]; intros lo; simpl.
  - reflexivity.
  - now rewrite IH.
Qed.

Lemma mass_discrete (a : list Q) : (mass (discrete a) == Qsum a)%Q.
Proof. apply mass_discrete_from. Qed.

Lemma prob_weighted_absent (w : Q) (l : list str) (c : str) :
  ~ In c l -> (prob (map (fun x => (w, Ok x)) l) (returns c) == 0)%Q.
Proof.
  induction l as [|x l IH]; simpl; intros H; [reflexivity|].
  destruct (str_eqb x c) eqn:E.
  - apply str_eqb_eq in E. tauto.
  - apply IH. tauto.
Qed.

Lemma prob_weighted_once (w : Q) (l : list str) (c : str) :
  NoDup l -> In c l -> (prob (map (fun x => (w, Ok x)) l) (returns c) == w)%Q.
Proof.
  induction l as [|x l IH]; simpl; intros Hnd Hin; [destruct Hin|].
  inversion Hnd as [|? ? Hx Hl]; subst.
  destruct (str_eqb x c) eqn:E.
  - apply str_eqb_eq in E. subst x.
    rewrite prob_weighted_absent by exact Hx. ring.
  - apply str_eqb_neq in E. destruct Hin as [H|H]; [congruence|]. now apply IH.
Qed.

Lemma prob_choice (l : list str) (c : str) :
  NoDup l -> In c l ->
  (prob (choice l) (returns c) == 1 # Pos.of_nat (length l))%Q.
Proof.
  intros Hnd Hin. destruct l as [|x l]; [destruct Hin|].
  unfold choice. now apply prob_weighted_once.
Qed.

Lemma Qsum_same_denominator (ns : list nat) (p : positive) :
  (Qsum (map (fun n => Z.of_nat n # p) ns) == Z.of_nat (list_sum ns) # p)%Q.
Proof.
  induction ns as [|n ns IH]; simpl.
  - reflexivity.
  - rewrite IH. unfold Qeq, Qplus. simpl.
    rewrite Nat2Z.inj_add, Pos2Z.inj_mul. ring.
Qed.

(** ** The weights [rand] computes, and the distribution it returns *)

Lemma char_freq_stored (self : MarkovModel) (g c : str) :
  length g = _k self -> char_freq self g c = Ok (stored_count (_st self) g c).
Proof.
  intros H. unfold char_freq, stored_count. rewrite H, Nat.eqb_refl. simpl.
  destruct (lookup g (_st self)) as [inner|]; trivial.
  now destruct (lookup c inner).
Qed.

Lemma rand_fill_step (self : MarkovModel) (g : str) (hold : list str)
    (tot : nat) (char_num : list Q) (i : nat) (h : str) :
  length g = _k self -> 0 < tot ->
  nth_error hold i = Some h -> i < length char_num ->
  rand_fill self g hold tot char_num i =
  Ok (firstn i char_num ++
      (Z.of_nat (stored_count (_st self) g h) # Pos.of_nat tot) ::
      skipn (S i) char_num).
Proof.
  intros Hg Ht Hh Hi. unfold rand_fill, getelem, list_set. rewrite Hh.
  cbn [rbind]. rewrite (char_freq_stored self g h Hg). cbn [rbind].
  rewrite py_div_ok by exact Ht. cbn [rbind].
  apply Nat.ltb_lt in Hi. now rewrite Hi.
Qed.

(** The loop of [rand] stores, for every successor symbol in turn, its
    frequency divided by the frequency of the k-gram. *)
Lemma rand_fill_loop (self : MarkovModel) (g : str) (hold : list str) (tot : nat) :
  length g = _k self -> 0 < tot ->
  for_range 0 (length hold) (rand_fill self g hold tot)
            (repeat 0%Q (length hold)) =
  Ok (map (fun h => Z.of_nat (stored_count (_st self) g h) # Pos.of_nat tot) hold).
Proof.
  intros Hg Ht.
  set (q := fun h => Z.of_nat (stored_count (_st self) g h) # Pos.of_nat tot).
  destruct (for_range_inv
              (fun j cn => cn = map q (firstn j hold) ++
                                repeat 0%Q (length hold - j))
              0 (length hold) (rand_fill self g hold tot)
              (repeat 0%Q (length hold))) as (cn & -> & ->).
  - now rewrite Nat.sub_0_r.
  - intros j cn Hj ->. change (0 + j) with j.
    destruct (nth_error hold j) as [h|] eqn:E; [|apply nth_error_None in E; lia].
    assert (Hlen : length (map q (firstn j hold)) = j).
    { rewrite length_map, length_firstn. lia. }
    rewrite (rand_fill_step self g hold tot _ j h Hg Ht E)
      by (rewrite length_app, Hlen, repeat_length; lia).
    eexists. split; [reflexivity|].
    rewrite firstn_app, Hlen, Nat.sub_diag, firstn_O, app_nil_r.
    rewrite firstn_all2 by lia.
    rewrite skipn_app, Hlen. replace (S j - j) with 1 by lia.
    rewrite (skipn_all2 (n := S j)) by lia. cbn [app].
    replace (length hold - j) with (S (length hold - S j)) by lia.
    cbn [repeat skipn]. rewrite <- (firstn_snoc _ _ _ E), map_app, <- app_assoc.
    reflexivity.
  - rewrite Nat.sub_diag, firstn_all. simpl. now rewrite app_nil_r.
Qed.

Lemma stored_count_keys (st : table) (g : str) (inner : dict nat) :
  lookup g st = Some inner -> NoDup (keys inner) ->
  map (stored_count st g) (keys inner) = values inner.
Proof.
  intros E Hnd. unfold stored_count. rewrite E.
  assert (H : forall l, (forall c n, In (c, n) l -> lookup c inner = Some n) ->
                        map (fun c => match lookup c inner with
                                      | Some n => n | None => 0 end) (keys l)
                        = values l).
  { induction l as [|[c n] l IH]; intros Hl; simpl; trivial.
    rewrite (Hl c n) by now left. f_equal. apply IH.
    intros; apply Hl; now right. }
  apply H. intros c n Hc. now apply NoDup_lookup.
Qed.

(** On a k-gram of a constructed table the weights [rand] computes sum to
    1 and the index drawn from them is not used: the distribution of [rand]
    is that of [random.choice] over the successor symbols. *)
Lemma rand_as_choice (text : str) (k : nat) (m : MarkovModel) (g : str)
    (inner : dict nat) (f : result str -> bool) :
  init text k = Ok m -> lookup g (_st m) = Some inner ->
  (prob (rand m g) f == prob (choice (keys inner)) f)%Q.
Proof.
  intros Hm E. destruct (init_wf _ _ _ Hm) as [Ek Hwf]. rewrite <- Ek in Hwf.
  destruct (wf_lookup _ _ _ _ Hwf E) as [Hg [Hne _]].
  pose proof (init_distinct _ _ _ _ _ Hm E) as Hnd.
  assert (Htot : kgram_freq m g = Ok (list_sum (values inner))).
  { unfold kgram_freq. now rewrite Hg, Nat.eqb_refl, E. }
  assert (Hpos : 0 < list_sum (values inner)).
  { destruct (kgram_freq_present m g inner Hwf E) as (n & Hn & Hp). congruence. }
  set (tot := list_sum (values inner)) in *.
  set (q := fun h => Z.of_nat (stored_count (_st m) g h) # Pos.of_nat tot).
  assert (Hlen : length (keys inner) = length inner) by apply length_map.
  assert (Hfill :
            (if 1 <? length inner
             then for_range 0 (length (keys inner))
                    (rand_fill m g (keys inner) tot) (repeat 0%Q (length inner))
             else rand_fill m g (keys inner) tot (repeat 0%Q (length inner)) 0)
            = Ok (map q (keys inner))).
  { destruct (1 <? length inner) eqn:E1.
    - rewrite <- Hlen. now apply rand_fill_loop.
    - apply Nat.ltb_ge in E1. destruct inner as [|[h n] [|e inner]];
        [congruence| |simpl in E1; lia].
      now rewrite (rand_fill_step m g _ tot _ 0 h Hg Hpos) by (simpl; auto). }
  assert (Hmax : exists mx, py_max (map q (keys inner)) = Ok mx).
  { apply py_max_ok. destruct inner; [congruence|discriminate]. }
  destruct Hmax as (mx & Hmx).
  unfold rand. rewrite Hg, Nat.eqb_refl, E, Htot. simpl negb. cbv iota zeta.
  rewrite prob_dbind_dlift. cbv beta.
  rewrite Hfill, prob_dbind_dlift. cbv beta.
  rewrite Hmx, prob_dbind_dlift. cbv beta.
  rewrite (prob_dbind_const (fun i => i < length (map q (keys inner)))).
  - rewrite mass_discrete.
    unfold q. rewrite <- (map_map (stored_count (_st m) g)
                            (fun n => Z.of_nat n # Pos.of_nat tot)).
    rewrite (stored_count_keys _ _ _ E Hnd), Qsum_same_denominator.
    fold tot. transitivity (1 * prob (choice (keys inner)) f)%Q; [|ring].
    apply Qmult_comp; [|reflexivity].
    unfold Qeq. simpl. lia.
  - apply surely_discrete. destruct inner; [congruence|discriminate].
Qed.

(** X6. On a k-gram [g] of the table of a constructed model, [rand(g)]
    raises nothing and returns a successor symbol stored under [g]; each of
    the [n] distinct successor symbols is returned with probability [1/n],
    whatever its frequency. *)
Theorem rand_uniform_distribution (text : str) (k : nat) (m : MarkovModel)
    (g : str) (inner : dict nat) :
  init text k = Ok m -> lookup g (_st m) = Some inner ->
  surely (fun c => In c (keys inner)) (rand m g) /\
  forall c, In c (keys inner) ->
    (prob (rand m g) (returns c) == 1 # Pos.of_nat (length inner))%Q.
Proof.
  intros Hm E. destruct (init_wf _ _ _ Hm) as [Ek Hwf]. rewrite <- Ek in Hwf.
  split; [now apply rand_surely|]. intros c Hc.
  rewrite (rand_as_choice _ _ _ _ _ _ Hm E), prob_choice; trivial.
  - unfold keys. now rewrite length_map.
  - exact (init_distinct _ _ _ _ _ Hm E).
Qed.

Lemma rand_uniform_distribution_witness :
  surely (fun c => In c (keys [(py "a", 2); (py "b", 1)]))
         (rand model_aaab (py "a")) /\
  forall c, In c (keys [(py "a", 2); (py "b", 1)]) ->
    (prob (rand model_aaab (py "a")) (returns c) ==
     1 # Pos.of_nat (length [(py "a", 2); (py "b", 1)]))%Q.
Proof.
  apply (rand_uniform_distribution (py "aaab") 1 model_aaab (py "a")
           [(py "a", 2); (py "b", 1)]).
  - reflexivity.
  - reflexivity.
Defined.

(** ** Generation from a seed that is no k-gram of the table *)

Lemma dbind_raised {A B} (w : Q) (e : exn) (f : A -> dist B) :
  dbind [(w, Err e)] f = [(w, Err e)].
Proof. reflexivity. Qed.

Lemma dloop_raised {S} (body : S -> nat -> dist S) (l : list nat) (w : Q) (e : exn) :
  fold_left (fun acc i => dbind acc (fun s => body s i)) l [(w, Err e)] =
  [(w, Err e)].
Proof. induction l as [|i l IH]; simpl; trivial. Qed.

(** A first call of [rand] that raises ends the generation. *)
Lemma gen_first_raises (self : MarkovModel) (g : str) (T : nat) (e : exn) :
  _k self < T ->
  rand self (slice g 0 (Z.of_nat (_k self + 0))) = dlift (Err e) ->
  outcomes (gen self g T) = [Err e].
Proof.
  intros HT Hr. unfold gen, dfor_range.
  replace (T - _k self) with (S (T - _k self - 1)) by lia.
  assert (H1 : dbind (dret g) (fun s => gen_body self s 0) =
               [((1 * 1)%Q, Err e)]).
  { change (dbind (dret g) (fun s => gen_body self s 0))
      with (map (fun wr' : Q * result str => ((1 * fst wr')%Q, snd wr'))
                (gen_body self g 0) ++ []).
    unfold gen_body. change (Z.of_nat 0) with 0%Z. rewrite Hr. reflexivity. }
  cbn [seq fold_left]. rewrite H1. now rewrite dloop_raised.
Qed.

(** X7. [gen] checks its seed only through [rand].  With [T <= k] it
    returns the seed as it is, whatever the seed; with [T > k], a seed of
    length [k] that is no key of the table raises the unknown-kgram error and
    a seed shorter than [k] raises the length error. *)
Theorem gen_seed_errors (self : MarkovModel) (g : str) (T : nat) :
  (T <= _k self -> gen self g T = dret g) /\
  (_k self < T -> length g = _k self -> lookup g (_st self) = None ->
   outcomes (gen self g T) = [Err UnknownKgram]) /\
  (_k self < T -> length g < _k self ->
   outcomes (gen self g T) = [Err InvalidKgramLength]).
Proof.
  split; [|split].
  - intros H. unfold gen. now replace (T - _k self) with 0 by lia.
  - intros HT Hg E. apply gen_first_raises; trivial.
    change 0%Z with (Z.of_nat 0). rewrite slice_nat. simpl skipn.
    rewrite firstn_all2 by lia. unfold rand.
    now rewrite Hg, Nat.eqb_refl, E.
  - intros HT Hg. apply gen_first_raises; trivial.
    change 0%Z with (Z.of_nat 0). rewrite slice_nat. simpl skipn.
    rewrite firstn_all2 by lia. unfold rand.
    assert (E : (_k self =? length g) = false) by (apply Nat.eqb_neq; lia).
    now rewrite E.
Qed.

Lemma gen_seed_errors_witness :
  gen model_aabaab (py "zz") 2 = dret (py "zz") /\
  outcomes (gen model_aabaab (py "bb") 5) = [Err UnknownKgram] /\
  outcomes (gen model_aabaab (py "a") 5) = [Err InvalidKgramLength].
Proof.
  split; [|split].
  - apply (proj1 (gen_seed_errors model_aabaab (py "zz") 2)). simpl. lia.
  - apply (proj1 (proj2 (gen_seed_errors model_aabaab (py "bb") 5))).
    + simpl. lia.
    + reflexivity.
    + reflexivity.
  - apply (proj2 (proj2 (gen_seed_errors model_aabaab (py "a") 5))).
    + simpl. lia.
    + simpl. lia.
Defined.

(** ** Repair: strings without markers, and missing contexts *)

Lemma for_range_app {S} (lo a b : nat) (body : S -> nat -> result S) (s0 : S) :
  for_range lo (a + b) body s0 =
  fold_left (fun acc i => rbind acc (fun s => body s i)) (seq (lo + a) b)
            (for_range lo a body s0).
Proof. unfold for_range. now rewrite seq_app, fold_left_app. Qed.

Lemma loop_raised {S} (body : S -> nat -> result S) (l : list nat) (e : exn) :
  fold_left (fun acc i => rbind acc (fun s => body s i)) l (Err e) = Err e.
Proof. induction l as [|i l IH]; simpl; trivial. Qed.

Lemma replace_body_other (self : MarkovModel) (s : str) (i : nat) (a : ascii) :
  nth_error s i = Some a -> a <> marker -> replace_body self s i = Ok s.
Proof.
  intros Hi Ha. unfold replace_body, getitem. rewrite Hi. cbn [rbind].
  assert (E : str_eqb [a] [marker] = false) by (apply str_eqb_neq; congruence).
  now rewrite E.
Qed.

(** The iterations over a prefix without marker leave the string as it is. *)
Lemma replace_prefix_unchanged (self : MarkovModel) (s : str) (n : nat) :
  n <= length s -> ~ In marker (firstn n s) ->
  for_range 0 n (replace_body self) s = Ok s.
Proof.
  intros Hn Hpre.
  destruct (for_range_inv (fun _ s' => s' = s) 0 n (replace_body self) s)
    as (s' & Hs' & ->); trivial.
  intros j s' Hj ->. change (0 + j) with j.
  destruct (nth_error s j) as [a|] eqn:E; [|apply nth_error_None in E; lia].
  exists s. split; trivial. apply (replace_body_other self s j a E).
  intros ->. apply Hpre. rewrite <- (firstn_skipn (S j) (firstn n s)).
  apply in_or_app. left. rewrite firstn_firstn.
  replace (Nat.min (S j) n) with (S j) by lia.
  rewrite <- (firstn_snoc _ _ _ E). apply in_or_app. right. now left.
Qed.

(** X8. On a string without marker [replace_unknown] returns the string
    itself, whatever the model. *)
Theorem replace_unknown_no_marker (self : MarkovModel) (corrupted : str) :
  ~ In marker corrupted -> replace_unknown self corrupted = Ok corrupted.
Proof.
  intros H. unfold replace_unknown. apply replace_prefix_unchanged; [lia|].
  now rewrite firstn_all.
Qed.

Lemma replace_unknown_no_marker_witness :
  replace_unknown model_aabaab (py "abba") = Ok (py "abba").
Proof.
  apply (replace_unknown_no_marker model_aabaab (py "abba")).
  vm_compute. intros [H|[H|[H|[H|[]]]]]; discriminate.
Defined.

Lemma replace_body_missing (self : MarkovModel) (s : str) (i : nat) :
  nth_error s i = Some marker ->
  lookup (kgram_b (_k self) s i) (_st self) = None ->
  replace_body self s i = Err KeyError.
Proof.
  intros Hi E. unfold replace_body, getitem. rewrite Hi. cbn [rbind].
  rewrite str_eqb_refl. cbv zeta. now rewrite E.
Qed.

Lemma replace_unknown_raises (self : MarkovModel) (corrupted : str) (i : nat) :
  nth_error corrupted i = Some marker ->
  ~ In marker (firstn i corrupted) ->
  lookup (kgram_b (_k self) corrupted i) (_st self) = None ->
  replace_unknown self corrupted = Err KeyError.
Proof.
  intros Hi Hpre E.
  assert (Hlt : i < length corrupted) by (apply nth_error_Some; congruence).
  unfold replace_unknown.
  replace (length corrupted) with (i + S (length corrupted - S i)) by lia.
  rewrite for_range_app, replace_prefix_unchanged by (trivial; lia).
  cbn [seq fold_left rbind Nat.add].
  rewrite (replace_body_missing self corrupted i Hi E). apply loop_raised.
Qed.

(** X9. When the [k] symbols before the first marker of the string are no
    key of the table, the lookup [self._st[kgram_b]] raises [KeyError] and the
    whole repair fails with it: no partly repaired string is returned. *)
Theorem replace_unknown_missing_context (self : MarkovModel) (corrupted : str)
    (i : nat) :
  nth_error corrupted i = Some marker ->
  ~ In marker (firstn i corrupted) ->
  lookup (kgram_b (_k self) corrupted i) (_st self) = None ->
  replace_unknown self corrupted = Err KeyError.
Proof. apply replace_unknown_raises. Qed.

Lemma replace_unknown_missing_context_witness :
  replace_unknown model_aabaab (py "abb~ab") = Err KeyError.
Proof.
  apply (replace_unknown_missing_context model_aabaab (py "abb~ab") 3).
  - reflexivity.
  - vm_compute. intros [H|[H|[H|[]]]]; discriminate.
  - reflexivity.
Defined.

Lemma slice_length_le {A} (s : list A) (lo : Z) (i : nat) :
  length (slice s lo (Z.of_nat i)) <= i.
Proof.
  unfold slice. rewrite length_firstn.
  assert (H : slice_bound (length s) (Z.of_nat i) <= i).
  { unfold slice_bound. destruct (Z.ltb_spec (Z.of_nat i) 0); lia. }
  lia.
Qed.

(** X10. In a constructed model, a first marker among the first [k] symbols
    of the string has fewer than [k] symbols before it (the slice
    [corrupted[i-k:i]] wraps to a shorter string), so its context is no key
    and the repair fails with [KeyError]. *)
Theorem replace_unknown_marker_too_early (text : str) (k : nat) (m : MarkovModel)
    (corrupted : str) (i : nat) :
  init text k = Ok m ->
  nth_error corrupted i = Some marker ->
  ~ In marker (firstn i corrupted) -> i < k ->
  replace_unknown m corrupted = Err KeyError.
Proof.
  intros Hm Hi Hpre Hik. destruct (init_wf _ _ _ Hm) as [Ek Hwf].
  apply (replace_unknown_raises m corrupted i Hi Hpre).
  destruct (lookup _ (_st m)) as [inner|] eqn:E; trivial. exfalso.
  rewrite <- Ek in Hwf. destruct (wf_lookup _ _ _ _ Hwf E) as [Hlen _].
  pose proof (slice_length_le corrupted (Z.of_nat i - Z.of_nat (_k m)) i) as H.
  unfold kgram_b in Hlen. lia.
Qed.

Lemma replace_unknown_marker_too_early_witness :
  replace_unknown model_aabaab (py "a~baab") = Err KeyError.
Proof.
  apply (replace_unknown_marker_too_early (py "aabaab") 2 model_aabaab
           (py "a~baab") 1).
  - reflexivity.
  - reflexivity.
  - vm_compute. intros [H|[]]; discriminate.
  - lia.
Defined.

(** ** Repair with a marker that is no symbol of the text *)

(** What a loop returns, when it returns, satisfies the invariant its body
    keeps. *)
Lemma for_range_partial {S} (I : nat -> S -> Prop) (lo n : nat)
    (body : S -> nat -> result S) (s0 s' : S) :
  I 0 s0 ->
  (forall j s s1, j < n -> I j s -> body s (lo + j) = Ok s1 -> I (Datatypes.S j) s1) ->
  for_range lo n body s0 = Ok s' -> I n s'.
Proof.
  intros H0 Hstep. revert s'. induction n as [|n IH]; intros s' Hs'.
  - unfold for_range in Hs'. simpl in Hs'. now injection Hs' as <-.
  - rewrite for_range_S in Hs'.
    destruct (for_range lo n body s0) as [s|e] eqn:E; [|discriminate].
    simpl in Hs'. apply (Hstep n s); [lia| |exact Hs'].
    apply IH; [|reflexivity]. intros j s1 s2 Hj. apply Hstep. lia.
Qed.

Lemma In_firstn {A} (x : A) (n : nat) (l : list A) : In x (firstn n l) -> In x l.
Proof.
  intros H. rewrite <- (firstn_skipn n l). apply in_or_app. now left.
Qed.

(** The successor symbols of a constructed table are symbols of the text. *)
Lemma successor_in_text (text : str) (k : nat) (m : MarkovModel) (g c : str)
    (inner : dict nat) :
  init text k = Ok m -> lookup g (_st m) = Some inner -> In c (keys inner) ->
  exists b, c = [b] /\ In b text.
Proof.
  intros Hm E Hc. apply init_inv in Hm. subst m. simpl in E.
  set (newtxt := text ++ firstn k text) in *.
  assert (Ht : In (g, c) (transitions (table_after k newtxt (length newtxt - k)))).
  { apply In_transitions. exists inner. split; [now apply lookup_In|exact Hc]. }
  apply In_transitions_after in Ht as (i & Hi & [= _ ->]).
  destruct (nth_error newtxt (i + k)) as [b|] eqn:Eb;
    [|apply nth_error_None in Eb; lia].
  exists b. split; [now apply window_1|].
  apply nth_error_In in Eb. unfold newtxt in Eb.
  apply in_app_or in Eb as [H|H]; [exact H|now apply In_firstn in H].
Qed.

Lemma replace_at_same (s : str) (j : nat) (a : ascii) :
  nth_error s j = Some a -> replace_at s j [a] = s.
Proof.
  intros H. unfold replace_at. rewrite <- (firstn_skipn j s) at 3. f_equal.
  replace (S j) with (1 + j) by lia. rewrite <- skipn_skipn.
  rewrite <- (Nat.add_0_r j), <- nth_error_skipn in H.
  destruct (skipn j s); simpl in *; congruence.
Qed.

Lemma replace_at_facts (s : str) (j : nat) (b : ascii) :
  j < length s ->
  length (replace_at s j [b]) = length s /\
  firstn (S j) (replace_at s j [b]) = firstn j s ++ [b] /\
  skipn (S j) (replace_at s j [b]) = skipn (S j) s /\
  nth_error (replace_at s j [b]) j = Some b /\
  forall i, i < j -> nth_error (replace_at s j [b]) i = nth_error s i.
Proof.
  intros Hj. unfold replace_at.
  assert (Hlen : length (firstn j s) = j) by (rewrite length_firstn; lia).
  repeat split.
  - rewrite !length_app, Hlen, length_skipn. simpl. lia.
  - rewrite firstn_app, Hlen, firstn_all2 by lia.
    replace (S j - j) with 1 by lia. reflexivity.
  - rewrite skipn_app, Hlen, skipn_all2 by lia.
    replace (S j - j) with 1 by lia. reflexivity.
  - rewrite nth_error_app2, Hlen, Nat.sub_diag by lia. reflexivity.
  - intros i Hi. rewrite nth_error_app1 by lia.
    rewrite <- (firstn_skipn j s) at 2. now rewrite nth_error_app1 by lia.
Qed.

(** At a position with no marker before it, an iteration that returns has
    put a symbol other than the marker at that position and changed nothing
    else; the symbol is the one that was there, or a symbol of the text when
    that one was the marker. *)
Lemma replace_body_step (text : str) (k : nat) (m : MarkovModel) (s s' : str)
    (j : nat) (a : ascii) :
  init text k = Ok m -> ~ In marker text ->
  nth_error s j = Some a -> ~ In marker (firstn j s) ->
  replace_body m s j = Ok s' ->
  exists b, s' = replace_at s j [b] /\ b <> marker /\
            (a <> marker -> b = a) /\ (a = marker -> In b text).
Proof.
  intros Hm Htext Ha Hpre Hbody.
  destruct (Ascii.eqb_spec a marker) as [->|Hne].
  - destruct (lookup (kgram_b (_k m) s j) (_st m)) as [inner|] eqn:E.
    + destruct (init_wf _ _ _ Hm) as [Ek Hwf]. rewrite <- Ek in Hwf.
      destruct (replace_body_marker m s j inner Hwf Ha E)
        as (jj & best & Hbest & Hb & _).
      apply nth_error_In in Hbest.
      destruct (successor_in_text _ _ _ _ _ _ Hm E Hbest) as (b & -> & Hin).
      exists b. rewrite Hb in Hbody. injection Hbody as <-.
      split; [now apply replace_first_at|]. split; [congruence|].
      split; [congruence|auto].
    + rewrite (replace_body_missing m s j Ha E) in Hbody. discriminate.
  - rewrite (replace_body_other m s j a Ha Hne) in Hbody. injection Hbody as <-.
    exists a. split; [symmetry; now apply replace_at_same|]. split; [exact Hne|].
    split; [auto|congruence].
Qed.

(** X11. When the marker is no symbol of the text the model was built
    from, a repair that returns gives a string of the same length without
    marker, that keeps every symbol of the input other than the marker, puts
    symbols of the text in the place of the markers, and is left as it is by
    a second repair. *)
Theorem replace_unknown_repairs (text : str) (k : nat) (m : MarkovModel)
    (corrupted s : str) :
  init text k = Ok m -> ~ In marker text ->
  replace_unknown m corrupted = Ok s ->
  length s = length corrupted /\
  ~ In marker s /\
  (forall i a, nth_error corrupted i = Some a -> a <> marker ->
               nth_error s i = Some a) /\
  (forall i b, nth_error corrupted i = Some marker -> nth_error s i = Some b ->
               In b text) /\
  replace_unknown m s = Ok s.
Proof.
  intros Hm Htext Hrun.
  set (I := fun j (s : str) =>
              length s = length corrupted /\
              ~ In marker (firstn j s) /\
              skipn j s = skipn j corrupted /\
              (forall i a, i < j -> nth_error corrupted i = Some a ->
                           a <> marker -> nth_error s i = Some a) /\
              (forall i b, i < j -> nth_error corrupted i = Some marker ->
                           nth_error s i = Some b -> In b text)).
  assert (HI : I (length corrupted) s).
  { apply (for_range_partial I 0 (length corrupted) (replace_body m) corrupted);
      [| |exact Hrun].
    - repeat split; trivial; try (intros; lia). intros [].
    - intros j s0 s1 Hj (Hlen & Hpre & Htail & Hkeep & Hnew) Hbody.
      change (0 + j) with j in Hbody.
      assert (Hsame : nth_error s0 j = nth_error corrupted j).
      { rewrite <- (Nat.add_0_r j), <- !nth_error_skipn. now rewrite Htail. }
      destruct (nth_error s0 j) as [a|] eqn:Ea;
        [|apply nth_error_None in Ea; lia].
      destruct (replace_body_step _ _ _ _ _ _ _ Hm Htext Ea Hpre Hbody)
        as (b & -> & Hb & Hba & Hbt).
      destruct (replace_at_facts s0 j b) as (H1 & H2 & H3 & H4 & H5); [lia|].
      repeat split.
      + lia.
      + rewrite H2. intros [H|[H|[]]]%in_app_or; [auto|congruence].
      + rewrite H3. replace (S j) with (1 + j) by lia.
        now rewrite <- !skipn_skipn, Htail.
      + intros i a' Hi Hc Hne. destruct (Nat.eq_dec i j) as [->|Hij].
        * rewrite H4. assert (a' = a) by congruence. subst a'. f_equal. auto.
        * rewrite H5 by lia. apply Hkeep; trivial. lia.
      + intros i b' Hi Hc Hs. destruct (Nat.eq_dec i j) as [->|Hij].
        * rewrite H4 in Hs. injection Hs as <-. apply Hbt. congruence.
        * rewrite H5 in Hs by lia. apply (Hnew i); trivial. lia. }
  destruct HI as (Hlen & Hpre & _ & Hkeep & Hnew).
  rewrite <- Hlen, firstn_all in Hpre.
  assert (Hbound : forall i x, nth_error corrupted i = Some x -> i < length corrupted).
  { intros i x H. apply nth_error_Some. congruence. }
  repeat split; trivial.
  - intros i a Hc Hne. apply Hkeep; eauto.
  - intros i b Hc Hs. apply (Hnew i); eauto.
  - unfold replace_unknown. apply replace_prefix_unchanged; [lia|].
    now rewrite firstn_all.
Qed.

Lemma replace_unknown_repairs_witness :
  length (py "aabaab") = length (py "aa~aab") /\
  ~ In marker (py "aabaab") /\
  (forall i a, nth_error (py "aa~aab") i = Some a -> a <> marker ->
               nth_error (py "aabaab") i = Some a) /\
  (forall i b, nth_error (py "aa~aab") i = Some marker ->
               nth_error (py "aabaab") i = Some b -> In b (py "aabaab")) /\
  replace_unknown model_aabaab (py "aabaab") = Ok (py "aabaab").
Proof.
  apply (replace_unknown_repairs (py "aabaab") 2 model_aabaab (py "aa~aab")
           (py "aabaab")).
  - reflexivity.
  - vm_compute. intros [H|[H|[H|[H|[H|[H|[]]]]]]]; discriminate.
  - reflexivity.
Defined.

(** ** The position [argmax] returns *)

(** X12. [argmax] raises [ValueError] on the empty list; on any other list
    it returns the first position that holds a greatest value: no value is
    greater and every value before it is smaller. *)
Theorem argmax_first_greatest (a : list Q) :
  (a = [] -> argmax a = Err ValueError) /\
  (a <> [] ->
   exists j y, argmax a = Ok j /\ nth_error a j = Some y /\
               (forall y', In y' a -> (y' <= y)%Q) /\
               (forall j' y', j' < j -> nth_error a j' = Some y' -> (y' < y)%Q)).
Proof.
  split.
  - intros ->. reflexivity.
  - apply argmax_spec.
Qed.

Lemma argmax_first_greatest_witness :
  exists j y, argmax [1 # 2; 3 # 4; 6 # 8]%Q = Ok j /\
              nth_error [1 # 2; 3 # 4; 6 # 8]%Q j = Some y /\
              (forall y', In y' [1 # 2; 3 # 4; 6 # 8]%Q -> (y' <= y)%Q) /\
              (forall j' y', j' < j -> nth_error [1 # 2; 3 # 4; 6 # 8]%Q j' = Some y' ->
                             (y' < y)%Q).
Proof.
  apply (proj2 (argmax_first_greatest [1 # 2; 3 # 4; 6 # 8]%Q)). discriminate.
Defined.

(** ** Frequencies as probabilities *)

Lemma In_list_sum_le (c : str) (n : nat) (inner : dict nat) :
  In (c, n) inner -> n <= list_sum (values inner).
Proof.
  induction inner as [|[c' n'] inner IH]; simpl; [tauto|].
  intros [[= -> ->]|H]; [lia|]. apply IH in H. lia.
Qed.

Lemma freq_le (self : MarkovModel) (g c : str) (a n : nat) :
  char_freq self g c = Ok a -> kgram_freq self g = Ok n -> a <= n.
Proof.
  unfold char_freq, kgram_freq.
  destruct (negb (_k self =? length g)); [discriminate|].
  destruct (lookup g (_st self)) as [inner|]; [|intros [= <-]; lia].
  destruct (lookup c inner) as [a'|] eqn:E; intros [= <-] [= <-]; [|lia].
  apply lookup_In in E. now apply In_list_sum_le in E.
Qed.

(** X13. For a query of length [k], on any model, both accessors return,
    and [char_freq(g, c)] is at most [kgram_freq(g)]. *)
Theorem char_freq_le_kgram_freq (self : MarkovModel) (g c : str) :
  length g = _k self ->
  exists a n, char_freq self g c = Ok a /\ kgram_freq self g = Ok n /\ a <= n.
Proof.
  intros Hg. destruct (char_freq_ok self g c Hg) as (a & Ha).
  assert (Hn : exists n, kgram_freq self g = Ok n).
  { unfold kgram_freq. rewrite Hg, Nat.eqb_refl. simpl.
    destruct (lookup g (_st self)); eauto. }
  destruct Hn as (n & Hn). exists a, n. repeat split; trivial.
  now apply (freq_le self g c).
Qed.

Lemma char_freq_le_kgram_freq_witness :
  exists a n, char_freq model_aaab (py "a") (py "b") = Ok a /\
              kgram_freq model_aaab (py "a") = Ok n /\ a <= n.
Proof.
  apply (char_freq_le_kgram_freq model_aaab (py "a") (py "b")). reflexivity.
Defined.

Lemma py_div_unit (a n : nat) (q : Q) :
  a <= n -> py_div a n = Ok q -> (0 <= q <= 1)%Q.
Proof.
  intros Han. unfold py_div. destruct (Nat.eqb_spec n 0); [discriminate|].
  intros [= <-]. unfold Qle. simpl. split; lia.
Qed.

Lemma likelihood_unit (self : MarkovModel) (ntxt : str) (bs : list nat) (p q : Q) :
  (0 <= p <= 1)%Q -> likelihood self ntxt bs p = Ok q -> (0 <= q <= 1)%Q.
Proof.
  revert p. induction bs as [|b bs IH]; intros p Hp; simpl.
  - now intros [= <-].
  - destruct (mem _ (_st self)).
    + destruct (char_freq self _ _) as [a|] eqn:Ea; [|discriminate].
      cbn [rbind]. destruct (kgram_freq self _) as [n|] eqn:En; [|discriminate].
      cbn [rbind]. destruct (py_div a n) as [r|] eqn:Er; [|discriminate].
      cbn [rbind]. apply IH.
      pose proof (py_div_unit a n r (freq_le _ _ _ _ _ Ea En) Er) as Hr.
      split.
      * apply Qmult_le_0_compat; tauto.
      * setoid_replace 1%Q with (1 * 1)%Q by ring.
        now apply Qmult_le_compat_nonneg.
    + intros [= <-]. split; [apply Qle_refl|discriminate].
Qed.

(** X14. The value the loop over [b] returns for a candidate window is a
    probability: it lies between 0 and 1, on any model and any window. *)
Theorem likelihood_is_probability (self : MarkovModel) (ntxt : str) (p : Q) :
  likelihood self ntxt (seq 0 (_k self + 1)) 1%Q = Ok p -> (0 <= p <= 1)%Q.
Proof.
  apply likelihood_unit. split; discriminate.
Qed.

Lemma likelihood_is_probability_witness :
  (0 <= 1 * (2 # 2) * (2 # 2) * (2 # 2) <= 1)%Q.
Proof.
  apply (likelihood_is_probability model_aabaab (py "aabaa")
           (1 * (2 # 2) * (2 # 2) * (2 # 2))%Q).
  reflexivity.
Defined.

(** ** The order of the keys *)

Lemma keys_setitem {V} (g : str) (v : V) (d : dict V) :
  keys (setitem g v d) = add_new (keys d) g.
Proof.
  unfold add_new. induction d as [|[k' w] d IH]; simpl; trivial.
  destruct (str_eqb g k') eqn:E; simpl.
  - apply str_eqb_eq in E. now subst.
  - rewrite IH. now destruct (existsb (str_eqb g) (keys d)).
Qed.

Lemma keys_add_transition (st : table) (hold c : str) :
  keys (add_transition st hold c) = add_new (keys st) hold.
Proof.
  unfold add_transition. destruct (lookup hold st) as [inner|];
    [destruct (lookup c inner)|]; apply keys_setitem.
Qed.

Lemma successors_add_transition (st : table) (hold c g : str) :
  successors (add_transition st hold c) g =
  if str_eqb hold g then add_new (successors st g) c else successors st g.
Proof.
  unfold successors. destruct (str_eqb hold g) eqn:Eg.
  - apply str_eqb_eq in Eg. subst g. unfold add_transition.
    destruct (lookup hold st) as [inner|];
      [destruct (lookup c inner)|]; rewrite lookup_setitem_eq; apply keys_setitem.
  - apply str_eqb_neq in Eg. unfold add_transition.
    destruct (lookup hold st) as [inner|]; [destruct (lookup c inner)|];
      now rewrite lookup_setitem_neq by exact Eg.
Qed.

Lemma first_seen_snoc (xs : list str) (x : str) :
  first_seen (xs ++ [x]) = add_new (first_seen xs) x.
Proof. unfold first_seen. now rewrite fold_left_app. Qed.

Lemma keys_table_after (k : nat) (newtxt : str) (n : nat) :
  keys (table_after k newtxt n) =
  first_seen (map (fun i => window newtxt i k) (seq 0 n)).
Proof.
  induction n as [|n IH]; [reflexivity|].
  simpl table_after. rewrite keys_add_transition, IH, seq_S, map_app.
  simpl map. now rewrite first_seen_snoc.
Qed.

Lemma successors_table_after (k : nat) (newtxt : str) (n : nat) (g : str) :
  successors (table_after k newtxt n) g =
  first_seen (map (fun i => window newtxt (i + k) 1)
                  (filter (fun i => str_eqb (window newtxt i k) g) (seq 0 n))).
Proof.
  induction n as [|n IH]; [reflexivity|].
  simpl table_after. rewrite successors_add_transition, IH, seq_S, filter_app.
  simpl filter. destruct (str_eqb (window newtxt n k) g).
  - rewrite map_app. simpl map. now rewrite first_seen_snoc.
  - now rewrite app_nil_r.
Qed.

(** X15. The keys of the table of a constructed model are the k-grams of
    the circular text, each once, in the order of their first occurrence. *)
Theorem table_keys_in_first_occurrence_order (text : str) (k : nat) (m : MarkovModel) :
  k <= length text -> init text k = Ok m ->
  keys (_st m) =
  first_seen (map (fun i => window (circular text k) i k) (seq 0 (length text))).
Proof.
  intros Hlen ->%init_inv. simpl.
  rewrite newtxt_length by exact Hlen. apply keys_table_after.
Qed.

Lemma table_keys_in_first_occurrence_order_witness :
  keys (_st model_aabaab) =
  first_seen (map (fun i => window (circular (py "aabaab") 2) i 2)
                  (seq 0 (length (py "aabaab")))).
Proof.
  apply (table_keys_in_first_occurrence_order (py "aabaab") 2 model_aabaab).
  - simpl. lia.
  - reflexivity.
Defined.

(** X16. The candidates that [rand] and [replace_unknown] enumerate for a
    k-gram [g], the keys of [table[g]], are the symbols that follow [g] in the
    circular text, each once, in the order in which they first follow it. *)
Theorem successors_in_first_occurrence_order (text : str) (k : nat)
    (m : MarkovModel) (g : str) (inner : dict nat) :
  k <= length text -> init text k = Ok m -> lookup g (_st m) = Some inner ->
  keys inner =
  first_seen (map (fun i => window (circular text k) (i + k) 1)
                  (filter (fun i => str_eqb (window (circular text k) i k) g)
                          (seq 0 (length text)))).
Proof.
  intros Hlen Hm E. apply init_inv in Hm. subst m. simpl in E.
  rewrite newtxt_length in E by exact Hlen.
  rewrite <- (successors_table_after k (circular text k) (length text) g).
  unfold successors, circular. now rewrite E.
Qed.

Lemma successors_in_first_occurrence_order_witness :
  keys [(py "a", 2); (py "b", 1)] =
  first_seen (map (fun i => window (circular (py "aaab") 1) (i + 1) 1)
                  (filter (fun i => str_eqb (window (circular (py "aaab") 1) i 1)
                                            (py "a"))
                          (seq 0 (length (py "aaab"))))).
Proof.
  apply (successors_in_first_occurrence_order (py "aaab") 1 model_aaab (py "a")
           [(py "a", 2); (py "b", 1)]).
  - simpl. lia.
  - reflexivity.
  - reflexivity.
Defined.

(** ** Sampling and generation return with probability one *)

Lemma mass_weighted {A} (n : nat) (l : list A) :
  (mass (map (fun x => (1 # Pos.of_nat (S n), Ok x)) l) ==
   inject_Z (Z.of_nat (length l)) * (1 # Pos.of_nat (S n)))%Q.
Proof.
  unfold mass. induction l as [|x l IH].
  - simpl. ring.
  - cbn [map prob fold_right snd fst]. fold (prob (A := A)).
    change (fold_right
              (fun (wr : Q * result A) (acc : Q) =>
                 if (fun _ : result A => true) (snd wr) then (fst wr + acc)%Q else acc)
              0%Q (map (fun x0 : A => (1 # Pos.of_nat (S n), Ok x0)) l))
      with (prob (map (fun x0 : A => (1 # Pos.of_nat (S n), Ok x0)) l)
                 (fun _ => true)).
    rewrite IH. cbn [length]. rewrite Nat2Z.inj_succ.
    unfold Z.succ. rewrite inject_Z_plus. ring.
Qed.

Lemma mass_choice {A} (l : list A) : l <> [] -> (mass (choice l) == 1)%Q.
Proof.
  intros Hl. destruct l as [|x l]; [congruence|]. unfold choice.
  rewrite (mass_weighted (length l) (x :: l)).
  unfold Qeq, inject_Z, Qmult. cbn [Qnum Qden length]. lia.
Qed.

(** A continuation of total weight 1 on every value keeps the weight of a
    distribution that raises nothing. *)
Lemma mass_dbind {A B} (P : A -> Prop) (d : dist A) (f : A -> dist B) :
  surely P d -> (forall a, P a -> (mass (f a) == 1)%Q) ->
  (mass (dbind d f) == mass d)%Q.
Proof.
  intros [_ Hall] Hf. unfold mass, dbind.
  induction Hall as [|[w r] d (a & E & Ha) _ IH]; simpl.
  - reflexivity.
  - simpl in E. subst r. rewrite prob_app, prob_scale, IH.
    specialize (Hf a Ha). unfold mass in Hf. rewrite Hf. ring.
Qed.

Lemma mass_rand (text : str) (k : nat) (m : MarkovModel) (g : str)
    (inner : dict nat) :
  init text k = Ok m -> lookup g (_st m) = Some inner ->
  (mass (rand m g) == 1)%Q.
Proof.
  intros Hm E. unfold mass. rewrite (rand_as_choice _ _ _ _ _ _ Hm E).
  apply mass_choice. destruct (init_wf _ _ _ Hm) as [Ek Hwf]. rewrite <- Ek in Hwf.
  destruct (wf_lookup _ _ _ _ Hwf E) as [_ [Hne _]].
  destruct inner; [congruence|discriminate].
Qed.

Lemma mass_gen (text : str) (k : nat) (m : MarkovModel) (g : str) (T : nat) :
  0 < k -> k <= length text -> init text k = Ok m -> In g (keys (_st m)) ->
  (mass (gen m g T) == 1)%Q.
Proof.
  intros Hk Hlen Hm Hg. destruct (init_wf _ _ _ Hm) as [Ek Hwf].
  pose proof (init_closed _ _ _ Hk Hlen Hm) as Hcl. rewrite <- Ek in *.
  unfold gen. induction (T - _k m) as [|n IH].
  - reflexivity.
  - rewrite dfor_range_S.
    rewrite (mass_dbind _ _ _ (gen_loop_surely m g n Hk Hwf Hcl Hg)); [exact IH|].
    intros s (Hs & _ & Hin). change (0 + n) with n. unfold gen_body.
    rewrite slice_nat. replace (_k m + n - n) with (_k m) by lia.
    rewrite firstn_all2 by (rewrite length_skipn; lia).
    destruct (In_keys_lookup _ _ Hin) as (inner & E).
    rewrite (mass_dbind _ _ _ (rand_surely m _ inner Hwf E)).
    + exact (mass_rand _ _ _ _ _ Hm E).
    + intros c _. reflexivity.
Qed.

(** When every outcome of a distribution is a value that [f] accepts, the
    probability of [f] is the whole weight. *)
Lemma prob_surely {A} (P : A -> Prop) (d : dist A) (f : result A -> bool) :
  surely P d -> (forall a, P a -> f (Ok a) = true) -> prob d f = mass d.
Proof.
  intros [_ Hall] Hf. unfold mass.
  induction Hall as [|[w r] d (a & E & Ha) _ IH]; simpl; trivial.
  simpl in E. subst r. now rewrite (Hf a Ha), IH.
Qed.

(** X17. For a constructed model, a seed [g] of its table and [T >= k],
    [gen(g, T)] returns with probability 1 a string of length [T] that starts
    with [g]: the outcomes that are exceptions, or strings of another shape,
    have probability 0. *)
Theorem gen_returns_with_probability_one (text : str) (k : nat) (m : MarkovModel)
    (g : str) (T : nat) :
  0 < k -> k <= length text -> init text k = Ok m -> In g (keys (_st m)) ->
  k <= T ->
  (prob (gen m g T) (generated k g T) == 1)%Q.
Proof.
  intros Hk Hlen Hm Hg HT. destruct (init_wf _ _ _ Hm) as [Ek Hwf].
  pose proof (init_closed _ _ _ Hk Hlen Hm) as Hcl.
  rewrite (prob_surely (fun s => length s = T /\ firstn k s = g)).
  - now apply (mass_gen text k).
  - rewrite <- Ek in *.
    eapply surely_mono; [apply (gen_loop_surely m g (T - _k m)); auto|].
    intros s (Hs & Hpre & _). split; [lia|exact Hpre].
  - intros s [Hs Hpre]. unfold generated.
    now rewrite Hs, Nat.eqb_refl, Hpre, str_eqb_refl.
Qed.

Lemma gen_returns_with_probability_one_witness :
  (prob (gen model_aabaab (py "aa") 6) (generated 2 (py "aa") 6) == 1)%Q.
Proof.
  apply (gen_returns_with_probability_one (py "aabaab") 2 model_aabaab
           (py "aa") 6).
  - lia.
  - simpl. lia.
  - reflexivity.
  - simpl. auto.
  - lia.
Defined.
